(** * The slash-command handler of the music bot (src/bot.ts)

    The [interactionCreate] handler owns the registry [subscriptions]
    (guild id -> MusicSubscription) and drives one MusicSubscription per
    guild through its voice connection, audio player and queue.

    The handler is an [async] function.  It is embedded as a tree of the
    calls it makes ([Prog]): every JavaScript [if] is a Rocq [if] or
    [match], every call whose answer the handler uses binds that answer in
    the continuation, so a local variable such as [subscription] is a Rocq
    variable captured by the rest of the handler.  The tree is then run
    against a [World] (the registry and the heap of subscription objects),
    either to completion ([run]) or turn by turn between [await]s
    ([run_schedule]), which is how Node interleaves two handlers. *)

From Stdlib Require Import ZArith Ascii String DecimalString.
From stdpp Require Import gmap strings list fin_maps.

(** ** Data *)

(** discord.js: [type Snowflake = string]. *)
Abbreviation Snowflake := string.

(** A reference to a MusicSubscription object: its index in the heap. *)
Abbreviation SubRef := nat.

(** The three continuations a requester attaches to a track (bot.ts, the
    second argument of [Track.from]). *)
Inductive CallbackKind := OnStart | OnFinish | OnError.

(** A resolved track: its URL, its display title, and the interaction
    whose [followUp] its callbacks close over. *)
Record Track := mkTrack {
  track_url : string;
  title : string;
  requester : Snowflake
}.

(** [VoiceConnectionStatus]. *)
Inductive VoiceConnectionStatus :=
  Signalling | Connecting | Ready | Disconnected | Destroyed.

(** [AudioPlayerStatus] of a player that holds a resource. *)
Inductive ActiveStatus := Playing | Paused | Buffering.

(** [audioPlayer.state]: Idle, or a status together with the resource,
    whose [metadata] is the track being rendered. *)
Inductive AudioPlayerState :=
| Idle
| Active (status : ActiveStatus) (metadata : Track).

(** The fields of a MusicSubscription that bot.ts reaches. *)
Record MusicSubscription := mkSub {
  voiceConnection : VoiceConnectionStatus;
  audioPlayer : AudioPlayerState;
  queue : list Track
}.

(** The process state: [const subscriptions = new Map<Snowflake,
    MusicSubscription>()] holds references; the objects live in [heap]
    and are never moved, so a reference a handler keeps across an
    [await] still denotes the same object. *)
Record World := mkWorld {
  subscriptions : gmap Snowflake SubRef;
  heap : list MusicSubscription
}.

#[global] Instance VoiceConnectionStatus_eq_dec : EqDecision VoiceConnectionStatus.
Proof. solve_decision. Defined.
#[global] Instance ActiveStatus_eq_dec : EqDecision ActiveStatus.
Proof. solve_decision. Defined.
#[global] Instance CallbackKind_eq_dec : EqDecision CallbackKind.
Proof. solve_decision. Defined.
#[global] Instance Track_eq_dec : EqDecision Track.
Proof. solve_decision. Defined.
#[global] Instance AudioPlayerState_eq_dec : EqDecision AudioPlayerState.
Proof. solve_decision. Defined.
#[global] Instance MusicSubscription_eq_dec : EqDecision MusicSubscription.
Proof. solve_decision. Defined.

(** [interaction.member.voice.channel]: the fields [joinVoiceChannel]
    is given. *)
Record VoiceChannel := mkChannel {
  channel_id : Snowflake;
  channel_guild_id : Snowflake
}.

(** [interaction.member]: a cached [GuildMember] with its voice state, or
    the raw API member, which fails [instanceof GuildMember]. *)
Inductive Member :=
| GuildMember (voice_channel : option VoiceChannel)
| APIMember.

(** The fields of an [Interaction] the handler reads.  [song] is the
    value of the required option of the play command. *)
Record Interaction := mkInteraction {
  interaction_id : Snowflake;
  isCommand : bool;
  guildId : option Snowflake;
  commandName : string;
  song : string;
  member : Member
}.

(** One search result of [yts]. *)
Record Video := mkVideo { video_url : string }.

(** What the collaborators outside the process answer: the URL test of
    ytdl, the text search ([None]: the promise rejects), the resolver
    behind [Track.from] (the title, or [None]: it throws), and whether
    the handshake of a connection completes while it is waited for. *)
Record Env := mkEnv {
  validateURL : string -> bool;
  yts : string -> option (list Video);
  track_info : string -> option string;
  joins : SubRef -> bool
}.

(** ** Calls and events *)

(** What is sent back to the requester: [interaction.reply(text)] and
    [interaction.followUp(text)] send plain text, the object form sets
    [ephemeral]. *)
Record Message := mkMessage { content : string; ephemeral : bool }.

Definition plain (text : string) : Message := mkMessage text false.
Definition private (text : string) : Message := mkMessage text true.

(** The awaited calls on an interaction.  They are taken to resolve:
    what the gateway does with a reply is outside the handler. *)
Inductive Send :=
| DeferReply (i : Snowflake)
| FollowUp (i : Snowflake) (m : Message)
| Reply (i : Snowflake) (m : Message).

(** The synchronous calls whose result the handler does not use. *)
Inductive Call :=
| RegistrySet (g : Snowflake) (s : SubRef)   (* subscriptions.set(g, s) *)
| RegistryDelete (g : Snowflake)             (* subscriptions.delete(g) *)
| ListenError (s : SubRef)                   (* s.voiceConnection.on("error", console.warn) *)
| Enqueue (s : SubRef) (t : Track)           (* s.enqueue(t) *)
| PlayerStop (s : SubRef)                    (* s.audioPlayer.stop() *)
| PlayerPause (s : SubRef)                   (* s.audioPlayer.pause() *)
| PlayerUnpause (s : SubRef)                 (* s.audioPlayer.unpause() *)
| ConnectionDestroy (s : SubRef)             (* s.voiceConnection.destroy() *)
| Warn.                                      (* console.warn(error) *)

(** What an observer of the process sees, in order. *)
Inductive Event :=
| EvGet (g : Snowflake) (found : option SubRef)
| EvJoin (c : VoiceChannel)
| EvNew (s : SubRef)
| EvRead (s : SubRef)
| EvValidateURL (text : string) (valid : bool)
| EvCall (c : Call)
| EvSend (m : Send)
| EvEntersState (s : SubRef) (ms : Z) (ready : bool)
| EvSearch (text : string)
| EvTrackFrom (url : string)
| EvCallback (k : CallbackKind) (t : Track).

#[global] Instance Message_eq_dec : EqDecision Message.
Proof. solve_decision. Defined.
#[global] Instance Send_eq_dec : EqDecision Send.
Proof. solve_decision. Defined.
#[global] Instance VoiceChannel_eq_dec : EqDecision VoiceChannel.
Proof. solve_decision. Defined.
#[global] Instance Call_eq_dec : EqDecision Call.
Proof. solve_decision. Defined.
#[global] Instance Event_eq_dec : EqDecision Event.
Proof. solve_decision. Defined.

(** The handler as the tree of its calls.  [Await*] nodes are the
    [await]s of the source: the handler is suspended there and other
    handlers may run before it is resumed. *)
Inductive Prog :=
| Return
| Get (g : Snowflake) (k : option SubRef -> Prog)
| New (c : VoiceChannel) (k : SubRef -> Prog)
| Read (s : SubRef) (k : MusicSubscription -> Prog)
| ValidateURL (text : string) (k : bool -> Prog)
| Do (c : Call) (k : Prog)
| AwaitSend (m : Send) (k : Prog)
| AwaitEntersState (s : SubRef) (ms : Z) (k : bool -> Prog)
| AwaitSearch (text : string) (k : option (list Video) -> Prog)
| AwaitTrackFrom (url : string) (i : Snowflake) (k : option Track -> Prog).

(** ** The subscription, its player and its connection *)

Module Subscription.

(** Modelled from the spec: the constructor of MusicSubscription
    (music/subscription.ts is not under src/).  "construct one, call
    connect, and return it immediately in Connecting state"; connect
    "returns immediately, state begins at Signalling/Connecting"; the
    engine starts Idle and the queue empty. *)
Definition create : MusicSubscription := mkSub Signalling Idle [].

(** Modelled from the spec: [PlaybackEngine.play] applied to the front
    of the queue (music/subscription.ts is not under src/).  "pop the
    Queue's front; if present, play it; if empty, remain Idle"; play
    "transitions to Playing ... invokes the item's onStart callback
    exactly once". *)
Definition play_front (sub : MusicSubscription) : MusicSubscription * list Event :=
  match queue sub with
  | [] => (sub, [])
  | t :: rest =>
      (mkSub (voiceConnection sub) (Active Playing t) rest, [EvCallback OnStart t])
  end.

(** Modelled from the spec: [enqueue] (music/subscription.ts is not
    under src/).  "appends to Queue; if PlaybackEngine is Idle and
    connection is Ready, immediately pops the front and calls play.  If
    the engine is already Active, the item waits." *)
Definition enqueue (t : Track) (sub : MusicSubscription) : MusicSubscription * list Event :=
  let sub' := mkSub (voiceConnection sub) (audioPlayer sub) (queue sub ++ [t]) in
  match audioPlayer sub, voiceConnection sub with
  | Idle, Ready => play_front sub'
  | _, _ => (sub', [])
  end.

(** Modelled from the spec: the reaction of the coordinator to the
    engine's Idle transition (music/subscription.ts is not under
    src/).  "On PlaybackEngine -> Idle event: pop the Queue's front; if
    present, play it; if empty, remain Idle". *)
Definition on_idle (sub : MusicSubscription) : MusicSubscription * list Event :=
  play_front (mkSub (voiceConnection sub) Idle (queue sub)).

(** Modelled from the spec: [PlaybackEngine.stop] (the player is the
    library's; its reaction is in music/subscription.ts, not under
    src/).  "forces a transition to Idle from any non-Idle state"; the
    transition is what advances the queue, through [on_idle]; the
    stopped item gets neither onFinish nor onError. *)
Definition stop (sub : MusicSubscription) : MusicSubscription * list Event :=
  match audioPlayer sub with
  | Idle => (sub, [])
  | Active _ _ => on_idle sub
  end.

(** Modelled from the spec: [pause] of the engine: "valid only from
    Playing/Paused respectively; otherwise a no-op that does not raise an
    error". *)
Definition pause (sub : MusicSubscription) : MusicSubscription * list Event :=
  match audioPlayer sub with
  | Active Playing t => (mkSub (voiceConnection sub) (Active Paused t) (queue sub), [])
  | _ => (sub, [])
  end.

(** Modelled from the spec: [resume] of the engine, which the player
    calls [unpause]: valid only from Paused, otherwise a no-op. *)
Definition unpause (sub : MusicSubscription) : MusicSubscription * list Event :=
  match audioPlayer sub with
  | Active Paused t => (mkSub (voiceConnection sub) (Active Playing t) (queue sub), [])
  | _ => (sub, [])
  end.

(** Modelled from the spec: [ConnectionManager.destroy] and the
    coordinator's teardown that follows it (music/subscription.ts is
    not under src/).  destroy "tears down the transport
    unconditionally, transitions to Destroyed, idempotent"; the
    coordinator "discards the Queue contents without invoking their
    callbacks". *)
Definition destroy (sub : MusicSubscription) : MusicSubscription * list Event :=
  (mkSub Destroyed (audioPlayer sub) [], []).

(** Modelled from the spec: the outcome of [awaitReady] on a
    connection, given whether its handshake completes within the wait
    (the library's [entersState]).  "suspends the caller until state
    reaches Ready or the timeout elapses ...; on timeout, fails with a
    Timeout error and leaves the underlying connection attempt
    running"; Destroyed is terminal. *)
Definition await_ready (completes : bool) (sub : MusicSubscription) : MusicSubscription * bool :=
  match voiceConnection sub with
  | Ready => (sub, true)
  | Destroyed => (sub, false)
  | _ =>
      if completes
      then (mkSub Ready (audioPlayer sub) (queue sub), true)
      else (sub, false)
  end.

End Subscription.

(** ** Running a handler *)

#[global] Instance MusicSubscription_inhabited : Inhabited MusicSubscription :=
  populate Subscription.create.

(** A method call on the object behind a reference: the object is
    updated in place, the callbacks it fires are reported. *)
Definition on_sub (s : SubRef)
    (method : MusicSubscription -> MusicSubscription * list Event)
    (w : World) : World * list Event :=
  match heap w !! s with
  | Some sub =>
      let '(sub', evs) := method sub in
      (mkWorld (subscriptions w) (<[s := sub']> (heap w)), evs)
  | None => (w, [])
  end.

(** [new MusicSubscription(joinVoiceChannel(...))]: a fresh object, whose
    reference is the next free index of the heap.  The object carries
    the status of its connection; that the library hands the live
    connection of a guild to a second [joinVoiceChannel] for it is not
    represented. *)
Definition alloc (w : World) : SubRef * World :=
  (length (heap w), mkWorld (subscriptions w) (heap w ++ [Subscription.create])).

Definition exec_call (c : Call) (w : World) : World * list Event :=
  match c with
  | RegistrySet g s => (mkWorld (<[g := s]> (subscriptions w)) (heap w), [])
  | RegistryDelete g => (mkWorld (delete g (subscriptions w)) (heap w), [])
  | ListenError _ => (w, [])
  | Enqueue s t => on_sub s (Subscription.enqueue t) w
  | PlayerStop s => on_sub s Subscription.stop w
  | PlayerPause s => on_sub s Subscription.pause w
  | PlayerUnpause s => on_sub s Subscription.unpause w
  | ConnectionDestroy s => on_sub s Subscription.destroy w
  | Warn => (w, [])
  end.

(** [entersState(s.voiceConnection, Ready, ms)]: [true] when the promise
    resolves, [false] when it rejects at the bound. *)
Definition entersState (env : Env) (s : SubRef) (w : World) : World * bool :=
  match heap w !! s with
  | Some sub =>
      let '(sub', ok) := Subscription.await_ready (joins env s) sub in
      (mkWorld (subscriptions w) (<[s := sub']> (heap w)), ok)
  | None => (w, false)
  end.

(** [Track.from(url, callbacks)]: the callbacks close over the
    interaction [i]. *)
Definition track_from (env : Env) (url : string) (i : Snowflake) : option Track :=
  match track_info env url with
  | Some name => Some (mkTrack url name i)
  | None => None
  end.

(** How many [await]s a run may still cross: [None] for a run to
    completion, [Some n] for a run that stops at the [await] after the
    [n]-th. *)
Definition spend (budget : option nat) : option (option nat) :=
  match budget with
  | None => Some None
  | Some 0 => None
  | Some (S n) => Some (Some n)
  end.

Definition emit (evs : list Event) (r : World * list Event * Prog) : World * list Event * Prog :=
  let '(w, rest, p) := r in (w, evs ++ rest, p).

(** The event of an awaited call is recorded when its promise settles,
    that is when the handler is resumed. *)
Fixpoint go (env : Env) (budget : option nat) (p : Prog) (w : World) : World * list Event * Prog :=
  match p with
  | Return => (w, [], Return)
  | Get g k =>
      let found := subscriptions w !! g in
      emit [EvGet g found] (go env budget (k found) w)
  | New c k =>
      let '(s, w') := alloc w in
      emit [EvJoin c; EvNew s] (go env budget (k s) w')
  | Read s k => emit [EvRead s] (go env budget (k (heap w !!! s)) w)
  | ValidateURL text k =>
      let valid := validateURL env text in
      emit [EvValidateURL text valid] (go env budget (k valid) w)
  | Do c k =>
      let '(w', evs) := exec_call c w in
      emit (EvCall c :: evs) (go env budget k w')
  | AwaitSend m k =>
      match spend budget with
      | None => (w, [], p)
      | Some budget' => emit [EvSend m] (go env budget' k w)
      end
  | AwaitEntersState s ms k =>
      match spend budget with
      | None => (w, [], p)
      | Some budget' =>
          let '(w', ok) := entersState env s w in
          emit [EvEntersState s ms ok] (go env budget' (k ok) w')
      end
  | AwaitSearch text k =>
      match spend budget with
      | None => (w, [], p)
      | Some budget' => emit [EvSearch text] (go env budget' (k (yts env text)) w)
      end
  | AwaitTrackFrom url i k =>
      match spend budget with
      | None => (w, [], p)
      | Some budget' => emit [EvTrackFrom url] (go env budget' (k (track_from env url i)) w)
      end
  end.

(** A handler run to completion, with nothing else running in between. *)
Definition run (env : Env) (p : Prog) (w : World) : World * list Event :=
  let '(w', evs, _) := go env None p w in (w', evs).

Definition is_await (p : Prog) : bool :=
  match p with
  | AwaitSend _ _ | AwaitEntersState _ _ _ | AwaitSearch _ _ | AwaitTrackFrom _ _ _ => true
  | _ => false
  end.

(** One turn of the event loop for one handler: the pending [await], if
    any, settles, and the handler runs up to its next [await]. *)
Definition turn (env : Env) (p : Prog) (w : World) : World * list Event * Prog :=
  go env (Some (if is_await p then 1 else 0)) p w.

(** Several handlers in flight: [schedule] names, turn after turn, the
    handler the event loop resumes. *)
Fixpoint run_schedule (env : Env) (schedule : list nat) (handlers : list Prog) (w : World)
    : World * list Event * list Prog :=
  match schedule with
  | [] => (w, [], handlers)
  | n :: rest =>
      match handlers !! n with
      | None => run_schedule env rest handlers w
      | Some p =>
          let '(w1, evs, p1) := turn env p w in
          let '(w2, evs', handlers') := run_schedule env rest (<[n := p1]> handlers) w1 in
          (w2, evs ++ evs', handlers')
      end
  end.

(** ** The handler (bot.ts, lines 99-248) *)

(** The line feed of the template literals. *)
Definition nl : string := String "010"%char EmptyString.

(** [`${n}`] for a number that is a natural. *)
Definition string_of_nat (n : nat) : string := NilEmpty.string_of_uint (Nat.to_uint n).

(** [Array.prototype.slice(start, end)] for indices that are naturals. *)
Definition slice {A} (start stop : nat) (l : list A) : list A :=
  take (stop - start) (drop start l).

(** [Array.prototype.join(sep)]. *)
Fixpoint join (sep : string) (l : list string) : string :=
  match l with
  | [] => EmptyString
  | x :: rest =>
      match rest with
      | [] => x
      | _ :: _ => x +:+ sep +:+ join sep rest
      end
  end.

(** Lines 202-208: what is playing. *)
Definition current_line (sub : MusicSubscription) : string :=
  match audioPlayer sub with
  | Idle => "Nothing is currently playing!"
  | Active _ metadata => "Playing **" +:+ title metadata +:+ "**"
  end.

(** Line 212: the arrow function given to [map]. *)
Definition queue_line (index : nat) (track : Track) : string :=
  string_of_nat (index + 1) +:+ ") " +:+ title track.

(** Lines 210-213. *)
Definition queue_lines (sub : MusicSubscription) : list string :=
  imap queue_line (slice 0 5 (queue sub)).

(** Lines 183-188: the [catch] of the second [try]. *)
Definition play_failed (i : Interaction) : Prog :=
  Do Warn
    (AwaitSend (FollowUp (interaction_id i)
                 (plain "Failed to play track, please try again later!"))
       Return).

(** Lines 152-182: the body of the second [try]; every throw lands in
    [play_failed]. *)
Definition resolve_and_enqueue (i : Interaction) (s : SubRef) (songinfo : string) : Prog :=
  let from_url url :=
    AwaitTrackFrom url (interaction_id i) (fun made =>
      match made with
      | None => play_failed i
      | Some track =>
          Do (Enqueue s track)
            (AwaitSend (FollowUp (interaction_id i)
                         (plain ("Enqueued **" +:+ title track +:+ "**")))
               Return)
      end) in
  ValidateURL songinfo (fun valid =>
    if negb valid then
      AwaitSearch songinfo (fun found =>
        match found with
        | None => play_failed i
        | Some videos =>
            match videos with
            | [] => play_failed i
            | first :: _ => from_url (video_url first)
            end
        end)
    else from_url songinfo).

(** Lines 111-127: join and subscribe when there is no subscription and
    the member is in a voice channel.  [rest] is the remainder of the
    handler, given the value of the local variable afterwards. *)
Definition join_if_absent (i : Interaction) (g : Snowflake)
    (subscription : option SubRef) (rest : option SubRef -> Prog) : Prog :=
  match subscription with
  | Some _ => rest subscription
  | None =>
      match member i with
      | GuildMember (Some channel) =>
          New channel (fun s =>
            Do (ListenError s) (Do (RegistrySet g s) (rest (Some s))))
      | _ => rest None
      end
  end.

(** Lines 103-188: the play command.  [subscription] is what line 101
    read from the registry. *)
Definition play (i : Interaction) (g : Snowflake) (subscription : option SubRef) : Prog :=
  AwaitSend (DeferReply (interaction_id i))
    (let songinfo := song i in
     join_if_absent i g subscription (fun subscription =>
       match subscription with
       | None =>
           AwaitSend (FollowUp (interaction_id i)
                        (plain "Join a voice channel and then try that again!"))
             Return
       | Some s =>
           AwaitEntersState s 20000 (fun ready =>
             if ready then resolve_and_enqueue i s songinfo
             else
               Do Warn
                 (AwaitSend (FollowUp (interaction_id i)
                    (plain "Failed to join voice channel within 20 seconds, please try again later!"))
                    Return))
       end)).

Definition interactionCreate (i : Interaction) : Prog :=
  if negb (isCommand i) then Return else
  match guildId i with
  | None => Return
  | Some g =>
  if decide (g = EmptyString) then Return else
  Get g (fun subscription =>
  let reply m := AwaitSend (Reply (interaction_id i) m) Return in
  if decide (commandName i = "play") then play i g subscription
  else if decide (commandName i = "skip") then
    match subscription with
    | Some s => Do (PlayerStop s) (reply (plain "Skipped song!"))
    | None => reply (plain "Not playing in this server!")
    end
  else if decide (commandName i = "queue") then
    match subscription with
    | Some s =>
        Read s (fun sub =>
          let current := current_line sub in
          let queue := join nl (queue_lines sub) in
          reply (plain (current +:+ nl +:+ nl +:+ queue)))
    | None => reply (plain "Not playing in this server!")
    end
  else if decide (commandName i = "pause") then
    match subscription with
    | Some s => Do (PlayerPause s) (reply (private "Paused!"))
    | None => reply (plain "Not playing in this server!")
    end
  else if decide (commandName i = "resume") then
    match subscription with
    | Some s => Do (PlayerUnpause s) (reply (private "Unpaused!"))
    | None => reply (plain "Not playing in this server!")
    end
  else if decide (commandName i = "leave") then
    match subscription with
    | Some s =>
        Do (ConnectionDestroy s)
          (Do (RegistryDelete g) (reply (private "Left channel!")))
    | None => reply (plain "Not playing in this server!")
    end
  else if decide (commandName i = "minecraft") then reply (plain "mc")
  else if decide (commandName i = "serverstatus") then reply (plain "status")
  else reply (plain "Unknown command"))
  end.

(** The handler of one interaction, run without interruption. *)
Definition handle (env : Env) (i : Interaction) (w : World) : World * list Event :=
  run env (interactionCreate i) w.

(** ** Reading the handler *)

(** [i] is the command [name] issued in guild [g]: it passes the guard of
    line 100 and takes the branch of [name]. *)
Definition command_in (i : Interaction) (name : string) (g : Snowflake) : Prop :=
  isCommand i = true ∧ guildId i = Some g ∧ g ≠ EmptyString ∧ commandName i = name.

(** The commands that need a subscription and only use it (lines
    189-240). *)
Definition session_commands : list string :=
  ["skip"; "queue"; "pause"; "resume"; "leave"].

(** The member is in no voice channel: the test of lines 112-115 fails. *)
Definition not_in_voice (i : Interaction) : Prop :=
  member i = APIMember ∨ member i = GuildMember None.

(** The replies and follow-ups of a trace, in order. *)
Definition sent (evs : list Event) : list Send :=
  omap (λ e, match e with EvSend m => Some m | _ => None end) evs.

(** The calls made on subscription objects and on the registry. *)
Definition calls (evs : list Event) : list Call :=
  omap (λ e, match e with EvCall c => Some c | _ => None end) evs.

(** The callbacks of tracks invoked in a trace. *)
Definition callbacks (evs : list Event) : list (CallbackKind * Track) :=
  omap (λ e, match e with EvCallback k t => Some (k, t) | _ => None end) evs.

(** ** Describing the runs of a play command *)

(** The world after lines 101-127 of a play command, and the
    subscription the handler then holds: the one of the registry, or a
    new one when there was none and the member is in a voice channel. *)
Definition joined (i : Interaction) (g : Snowflake) (w : World) : option (SubRef * World) :=
  match subscriptions w !! g with
  | Some s => Some (s, w)
  | None =>
      match member i with
      | GuildMember (Some _) =>
          let s := length (heap w) in
          Some (s, mkWorld (<[g := s]> (subscriptions w)) (heap w ++ [Subscription.create]))
      | _ => None
      end
  end.

(** The events of lines 101-127. *)
Definition joining (i : Interaction) (g : Snowflake) (w : World) : list Event :=
  EvGet g (subscriptions w !! g) :: EvSend (DeferReply (interaction_id i)) ::
  match subscriptions w !! g, member i with
  | None, GuildMember (Some channel) =>
      let s := length (heap w) in
      [EvJoin channel; EvNew s; EvCall (ListenError s); EvCall (RegistrySet g s)]
  | _, _ => []
  end.

(** The URL given to [Track.from] (lines 155-159): the text itself when
    it is a valid URL, else the first result of the search; [None] when
    the search rejects or finds nothing. *)
Definition chosen_url (env : Env) (songinfo : string) : option string :=
  if validateURL env songinfo then Some songinfo
  else
    match yts env songinfo with
    | Some (first :: _) => Some (video_url first)
    | _ => None
    end.

(** The track a play command resolves to; [None] when resolution fails. *)
Definition resolved (env : Env) (i : Interaction) : option Track :=
  match chosen_url env (song i) with
  | Some url => track_from env url (interaction_id i)
  | None => None
  end.

(** The events of the resolution (lines 155-178). *)
Definition resolving (env : Env) (songinfo : string) : list Event :=
  EvValidateURL songinfo (validateURL env songinfo) ::
  (if validateURL env songinfo then [] else [EvSearch songinfo]) ++
  match chosen_url env songinfo with
  | Some url => [EvTrackFrom url]
  | None => []
  end.

Definition failed_to_play (i : Interaction) : list Event :=
  [EvCall Warn;
   EvSend (FollowUp (interaction_id i)
             (plain "Failed to play track, please try again later!"))].

Definition failed_to_join (i : Interaction) : list Event :=
  [EvCall Warn;
   EvSend (FollowUp (interaction_id i)
             (plain "Failed to join voice channel within 20 seconds, please try again later!"))].

(** Resolution of the request fails: the text is not a valid URL and the
    search rejects or finds no video, or [Track.from] throws on the URL
    it is given. *)
Definition resolution_fails (env : Env) (i : Interaction) : Prop :=
  (validateURL env (song i) = false ∧
   (yts env (song i) = None ∨ yts env (song i) = Some [])) ∨
  (∃ url, chosen_url env (song i) = Some url ∧ track_info env url = None).

(** Joining the channel and constructing the subscription. *)
Definition connects (e : Event) : bool :=
  match e with EvJoin _ | EvNew _ => true | _ => false end.

(** The readiness wait. *)
Definition waits (e : Event) : bool :=
  match e with EvEntersState _ _ _ => true | _ => false end.

(** The calls of the resolution. *)
Definition resolves (e : Event) : bool :=
  match e with EvValidateURL _ _ | EvSearch _ | EvTrackFrom _ => true | _ => false end.

Definition enqueues (e : Event) : bool :=
  match e with EvCall (Enqueue _ _) => true | _ => false end.

(** The subscriptions constructed in a trace. *)
Definition created (evs : list Event) : list SubRef :=
  omap (λ e, match e with EvNew s => Some s | _ => None end) evs.

(** The subscription a suspended handler waits on. *)
Definition waiting_on (p : Prog) : option SubRef :=
  match p with AwaitEntersState s _ _ => Some s | _ => None end.

(** ** Inputs *)

Module Race.

(** Every text is a valid URL, every URL resolves to a track named after
    it, every handshake completes. *)
Definition env : Env :=
  mkEnv (λ _, true) (λ _, None) (λ url, Some url) (λ _, true).

Definition first_request : Interaction :=
  mkInteraction "1" true (Some "guild") "play" "https://a"
    (GuildMember (Some (mkChannel "voice" "guild"))).

Definition second_request : Interaction :=
  mkInteraction "2" true (Some "guild") "play" "https://b"
    (GuildMember (Some (mkChannel "voice" "guild"))).

(** No subscription anywhere. *)
Definition start : World := mkWorld ∅ [].

(** The second command arrives while the first awaits [deferReply];
    thereafter the two handlers are resumed in turn until both are
    done. *)
Definition schedule : list nat := [0; 1; 0; 1; 0; 1; 0; 1; 0; 1].

Definition first_track : Track := mkTrack "https://a" "https://a" "1".
Definition second_track : Track := mkTrack "https://b" "https://b" "2".

End Race.

Module Fixture.

(** No text is a valid URL, the search finds nothing, no handshake
    completes. *)
Definition deaf : Env :=
  mkEnv (λ _, false) (λ _, Some []) (λ url, Some url) (λ _, false).

Definition song_a : Track := mkTrack "https://a" "A" "1".
Definition song_b : Track := mkTrack "https://b" "B" "2".
Definition song_c : Track := mkTrack "https://c" "C" "3".

(** One guild, whose subscription plays A with B and C queued. *)
Definition busy : World :=
  mkWorld {[ "guild" := 0 ]} [mkSub Ready (Active Playing song_a) [song_b; song_c]].

(** One guild, whose subscription is still connecting. *)
Definition connecting : World :=
  mkWorld {[ "guild" := 0 ]} [mkSub Connecting Idle []].


(** A command of the guild, from a member who is in no voice channel. *)
Definition command (name : string) : Interaction :=
  mkInteraction "7" true (Some "guild") name "never heard" (GuildMember None).

(** A button press outside any guild. *)
Definition button : Interaction :=
  mkInteraction "8" false None "play" "never heard" APIMember.

(** One guild, whose subscription waits for its connection with seven
    tracks queued. *)
Definition crowded : World :=
  mkWorld {[ "guild" := 0 ]}
    [mkSub Disconnected Idle
       [song_a; song_b; song_c; song_a; song_b; song_c; song_a]].

(** A member in a voice channel asks for a song. *)
Definition request : Interaction :=
  mkInteraction "9" true (Some "guild") "play" "https://d"
    (GuildMember (Some (mkChannel "voice" "guild"))).

End Fixture.

(** ** The slash commands and their registration (bot.ts, lines 18-91) *)

(** [ApplicationCommandOptionType]: the one member bot.ts uses. *)
Inductive ApplicationCommandOptionType := OptionString.

(** An entry of [options]. *)
Record CommandOption := mkOption {
  option_name : string;
  option_type : ApplicationCommandOptionType;
  option_description : string;
  option_required : bool
}.

(** An entry of [commands]; an entry without [options] has none. *)
Record SlashCommand := mkCommand {
  cmd_name : string;
  cmd_description : string;
  cmd_options : list CommandOption
}.

(** Lines 27-68. *)
Definition commands : list SlashCommand :=
  [ mkCommand "play" "Plays a song"
      [mkOption "song" OptionString "The URL of the song to play" true];
    mkCommand "skip" "Skip to the next song in the queue" [];
    mkCommand "queue" "See the music queue" [];
    mkCommand "pause" "Pauses the song that is currently playing" [];
    mkCommand "resume" "Resume playback of the current song" [];
    mkCommand "leave" "Leave the voice channel" [];
    mkCommand "minecraft" "Start the Minecraft server" [];
    mkCommand "serverstatus" "Check if server is up" [] ].

(** The names under which the bot registers commands. *)
Definition command_names : list string := cmd_name <$> commands.

Module Startup.

(** Line 18: [const { token, clientId, guildId = null } =
    require("../auth.json")]. *)
Record Auth := mkAuth {
  token : string;
  clientId : Snowflake;
  guildId : option Snowflake
}.

(** [Routes.applicationGuildCommands] and [Routes.applicationCommands]. *)
Inductive Route :=
| applicationGuildCommands (application guild : Snowflake)
| applicationCommands (application : Snowflake).

(** What the startup does, in order: the two [console.log]s, the
    [rest.put]s with their body and whether they resolved, and the
    [console.error] of the [catch]. *)
Inductive StartupEvent :=
| Log (text : string)
| Put (route : Route) (body : list SlashCommand) (resolved : bool)
| LogError.

Definition started : StartupEvent :=
  Log "Started refreshing application (/) commands.".

Definition reloaded : StartupEvent :=
  Log "Successfully reloaded application (/) commands.".

(** Lines 72-91: the body of the [try], then the [catch].  [rest] tells
    whether a [put] on a route resolves. *)
Definition refresh (auth : Auth) (rest : Route -> bool) : list StartupEvent :=
  let global :=
    let route := applicationCommands (clientId auth) in
    if rest route
    then [Put route commands true; reloaded]
    else [Put route commands false; LogError] in
  started ::
  match guildId auth with
  | None => global
  | Some guild =>
      if decide (guild = EmptyString) then global
      else
        let route := applicationGuildCommands (clientId auth) guild in
        if rest route
        then Put route commands true :: global
        else [Put route commands false; LogError]
  end.

End Startup.

(** ** Describing the runs of the other commands *)

(** The commands that act on a subscription. *)
Definition music_commands : list string :=
  ["play"; "skip"; "queue"; "pause"; "resume"; "leave"].


(** Calls in sequence, each followed by what it fires. *)
Fixpoint exec_calls (cs : list Call) (w : World) : World * list Event :=
  match cs with
  | [] => (w, [])
  | c :: rest =>
      let '(w1, fired) := exec_call c w in
      let '(w2, evs) := exec_calls rest w1 in
      (w2, EvCall c :: fired ++ evs)
  end.

(** The calls of the branch of a command other than play (lines
    189-247), given what line 101 found in the registry. *)
Definition branch_calls (name : string) (g : Snowflake) (found : option SubRef) : list Call :=
  match found with
  | None => []
  | Some s =>
      if decide (name = "skip") then [PlayerStop s]
      else if decide (name = "pause") then [PlayerPause s]
      else if decide (name = "resume") then [PlayerUnpause s]
      else if decide (name = "leave") then [ConnectionDestroy s; RegistryDelete g]
      else []
  end.

(** What the branch reads of the subscription. *)
Definition branch_reads (name : string) (found : option SubRef) : list Event :=
  match found with
  | Some s => if decide (name = "queue") then [EvRead s] else []
  | None => []
  end.

(** The reply of the branch. *)
Definition branch_reply (name : string) (found : option SubRef) (w : World) : Message :=
  if decide (name = "minecraft") then plain "mc"
  else if decide (name = "serverstatus") then plain "status"
  else if decide (name ∈ music_commands) then
    match found with
    | None => plain "Not playing in this server!"
    | Some s =>
        if decide (name = "skip") then plain "Skipped song!"
        else if decide (name = "queue") then
          plain (current_line (heap w !!! s) +:+ nl +:+ nl +:+
                 join nl (queue_lines (heap w !!! s)))
        else if decide (name = "pause") then private "Paused!"
        else if decide (name = "resume") then private "Unpaused!"
        else private "Left channel!"
    end
  else plain "Unknown command".

(** [i] passes the guard of line 100 with guild [g]. *)
Definition passes_guard (i : Interaction) (g : Snowflake) : Prop :=
  isCommand i = true ∧ guildId i = Some g ∧ g ≠ EmptyString.

(** The member is in a voice channel: the test of lines 112-115 holds. *)
Definition in_voice (i : Interaction) : Prop :=
  ∃ channel, member i = GuildMember (Some channel).

(** The same interaction from another member. *)
Definition with_member (m : Member) (i : Interaction) : Interaction :=
  mkInteraction (interaction_id i) (isCommand i) (guildId i) (commandName i) (song i) m.

(** ** The play branch when the gateway rejects a send *)

(** Lines 152-188 when a follow-up may reject; [delivered] tells which
    sends resolve.  The follow-up of line 181 is inside the [try]: when
    it rejects, after the [enqueue], the [catch] of lines 183-188 warns
    and sends the failure follow-up.  The follow-up of the [catch] is
    the last statement of the handler. *)
Definition resolve_and_enqueue_via (delivered : Send -> bool)
    (i : Interaction) (s : SubRef) (songinfo : string) : Prog :=
  let from_url url :=
    AwaitTrackFrom url (interaction_id i) (fun made =>
      match made with
      | None => play_failed i
      | Some track =>
          let enqueued :=
            FollowUp (interaction_id i)
              (plain ("Enqueued **" +:+ title track +:+ "**")) in
          Do (Enqueue s track)
            (AwaitSend enqueued
               (if delivered enqueued then Return else play_failed i))
      end) in
  ValidateURL songinfo (fun valid =>
    if negb valid then
      AwaitSearch songinfo (fun found =>
        match found with
        | None => play_failed i
        | Some videos =>
            match videos with
            | [] => play_failed i
            | first :: _ => from_url (video_url first)
            end
        end)
    else from_url songinfo).

(** Lines 103-188 when a send may reject.  [deferReply] (line 104) and
    the follow-ups of lines 131 and 146 are awaited outside any [try]:
    when one rejects the handler ends there, and the two follow-ups are
    followed by [return] anyway. *)
Definition play_via (delivered : Send -> bool)
    (i : Interaction) (g : Snowflake) (subscription : option SubRef) : Prog :=
  AwaitSend (DeferReply (interaction_id i))
    (if delivered (DeferReply (interaction_id i)) then
       let songinfo := song i in
       join_if_absent i g subscription (fun subscription =>
         match subscription with
         | None =>
             AwaitSend (FollowUp (interaction_id i)
                          (plain "Join a voice channel and then try that again!"))
               Return
         | Some s =>
             AwaitEntersState s 20000 (fun ready =>
               if ready then resolve_and_enqueue_via delivered i s songinfo
               else
                 Do Warn
                   (AwaitSend (FollowUp (interaction_id i)
                      (plain "Failed to join voice channel within 20 seconds, please try again later!"))
                      Return))
         end)
     else Return).



(** * Properties *)

Ltac enter_branch H :=
  destruct H as (Hcmd & Hguild & Hne & Hname);
  unfold handle, run, interactionCreate;
  rewrite Hcmd, Hguild; cbn [negb];
  destruct (decide (_ = EmptyString)) as [Heq | _]; [ contradiction | ];
  cbn [go]; rewrite Hname;
  repeat match goal with
    | |- context [decide (?a = ?b)] =>
        destruct (decide (a = b)) as [Hd | Hd];
        [ try discriminate Hd | try (exfalso; apply Hd; reflexivity) ];
        clear Hd
    end.

Lemma emit_app evs evs' r : emit evs (emit evs' r) = emit (evs ++ evs') r.
Proof. destruct r as [[w rest] p]. cbn. by rewrite app_assoc. Qed.

Lemma handle_guard env i w :
  isCommand i = false ∨ guildId i = None ∨ guildId i = Some EmptyString →
  go env None (interactionCreate i) w = (w, [], Return).
Proof.
  unfold interactionCreate.
  intros [H | [H | H]]; rewrite H; cbn [negb]; try reflexivity.
  - destruct (isCommand i); reflexivity.
  - destruct (isCommand i); cbn [negb]; [ | reflexivity ].
    destruct (decide _) as [_ | Hd]; [ reflexivity | exfalso; apply Hd; reflexivity ].
Qed.

(** ** Interactions that are not commands of a guild *)

(** C10: an interaction that is not a command, or whose guild id is null
    (or the empty string, which line 100 treats alike), is ignored: the
    handler makes no call at all, so it sends nothing and neither reads
    nor writes the registry or a subscription, and the world is as it
    was. *)
Theorem ignored_interaction env i w :
  isCommand i = false ∨ guildId i = None ∨ guildId i = Some EmptyString →
  handle env i w = (w, []).
Proof.
  intros H. unfold handle, run. rewrite (handle_guard env i w H). reflexivity.
Qed.

(** ** Commands in a guild without a subscription *)

(** C9: skip, queue, pause, resume and leave, in a guild for which the
    registry holds nothing, reply "Not playing in this server!" and do
    nothing else: the world is as it was. *)
Theorem no_session_reply env i w g name :
  name ∈ session_commands →
  command_in i name g →
  subscriptions w !! g = None →
  handle env i w =
    (w, [EvGet g None;
         EvSend (Reply (interaction_id i) (plain "Not playing in this server!"))]).
Proof.
  intros Hin H Hnone. unfold session_commands in Hin.
  repeat (apply elem_of_cons in Hin as [-> | Hin]);
    try (by apply elem_of_nil in Hin);
    enter_branch H; rewrite Hnone; reflexivity.
Qed.

(** ** Play: creating the subscription on first use *)

(** A play command up to its readiness wait: what remains to run. *)
Lemma play_prefix env i w g :
  command_in i "play" g →
  go env None (interactionCreate i) w =
    match joined i g w with
    | None =>
        (w, joining i g w ++
            [EvSend (FollowUp (interaction_id i)
                       (plain "Join a voice channel and then try that again!"))],
         Return)
    | Some (s, w1) =>
        emit (joining i g w)
          (go env None
             (AwaitEntersState s 20000 (fun ready =>
                if ready then resolve_and_enqueue i s (song i)
                else
                  Do Warn
                    (AwaitSend (FollowUp (interaction_id i)
                       (plain "Failed to join voice channel within 20 seconds, please try again later!"))
                       Return)))
             w1)
    end.
Proof.
  intros H. destruct H as (Hcmd & Hguild & Hne & Hname).
  unfold interactionCreate. rewrite Hcmd, Hguild, Hname. cbn [negb].
  destruct (decide (g = EmptyString)) as [Heq | _]; [ contradiction | ].
  destruct (decide ("play" = "play")) as [_ | Hd]; [ | exfalso; apply Hd; reflexivity ].
  unfold joined, joining, play, join_if_absent.
  cbn [go spend].
  destruct (subscriptions w !! g) as [s | ] eqn:Hreg.
  - rewrite !emit_app. reflexivity.
  - destruct (member i) as [[channel | ] | ]; cbn [go spend alloc exec_call];
      rewrite ?emit_app; reflexivity.
Qed.

(** The second [try] of a play command, run to completion. *)
Lemma resolve_run env i s w :
  go env None (resolve_and_enqueue i s (song i)) w =
    match resolved env i with
    | None => (w, resolving env (song i) ++ failed_to_play i, Return)
    | Some track =>
        let '(w', fired) := on_sub s (Subscription.enqueue track) w in
        (w', resolving env (song i) ++
             EvCall (Enqueue s track) :: fired ++
             [EvSend (FollowUp (interaction_id i)
                        (plain ("Enqueued **" +:+ title track +:+ "**")))],
         Return)
    end.
Proof.
  unfold resolve_and_enqueue, resolved, resolving, chosen_url, failed_to_play, play_failed.
  cbn [go spend].
  destruct (validateURL env (song i)); cbn [negb go spend exec_call].
  - destruct (track_from env (song i) (interaction_id i)) as [track | ];
      cbn [go spend exec_call emit app]; [ | reflexivity ].
    destruct (on_sub s _ w) as [w' fired]. cbn. by rewrite ?app_nil_r.
  - destruct (yts env (song i)) as [[ | first rest] | ];
      cbn [go spend exec_call emit app]; try reflexivity.
    destruct (track_from env (video_url first) (interaction_id i)) as [track | ];
      cbn [go spend exec_call emit app]; [ | reflexivity ].
    destruct (on_sub s _ w) as [w' fired]. cbn. by rewrite ?app_nil_r.
Qed.

(** A play command run to completion, path by path. *)
Lemma play_run env i w g :
  command_in i "play" g →
  handle env i w =
    match joined i g w with
    | None =>
        (w, joining i g w ++
            [EvSend (FollowUp (interaction_id i)
                       (plain "Join a voice channel and then try that again!"))])
    | Some (s, w1) =>
        let '(w2, ready) := entersState env s w1 in
        if ready then
          match resolved env i with
          | None =>
              (w2, joining i g w ++ EvEntersState s 20000 true ::
                   resolving env (song i) ++ failed_to_play i)
          | Some track =>
              let '(w3, fired) := on_sub s (Subscription.enqueue track) w2 in
              (w3, joining i g w ++ EvEntersState s 20000 true ::
                   resolving env (song i) ++
                   EvCall (Enqueue s track) :: fired ++
                   [EvSend (FollowUp (interaction_id i)
                              (plain ("Enqueued **" +:+ title track +:+ "**")))])
          end
        else (w2, joining i g w ++ EvEntersState s 20000 false :: failed_to_join i)
    end.
Proof.
  intros H. unfold handle, run. rewrite (play_prefix env i w g H).
  destruct (joined i g w) as [[s w1] | ]; [ | reflexivity ].
  cbn [go spend]. destruct (entersState env s w1) as [w2 [ | ]].
  - rewrite resolve_run. destruct (resolved env i) as [track | ].
    + destruct (on_sub s _ w2) as [w3 fired]. reflexivity.
    + reflexivity.
  - reflexivity.
Qed.

(** Method calls and the readiness wait leave the registry alone. *)
Lemma on_sub_subscriptions s method w :
  subscriptions (on_sub s method w).1 = subscriptions w.
Proof.
  unfold on_sub. destruct (heap w !! s) as [sub | ]; [ | reflexivity ].
  destruct (method sub). reflexivity.
Qed.

Lemma entersState_subscriptions env s w :
  subscriptions (entersState env s w).1 = subscriptions w.
Proof.
  unfold entersState. destruct (heap w !! s) as [sub | ]; [ | reflexivity ].
  destruct (Subscription.await_ready _ sub). reflexivity.
Qed.

Lemma joined_registered i g w s w1 :
  joined i g w = Some (s, w1) → subscriptions w1 !! g = Some s.
Proof.
  unfold joined. destruct (subscriptions w !! g) as [s0 | ] eqn:Hreg.
  - intros [= <- <-]. exact Hreg.
  - destruct (member i) as [[channel | ] | ]; intros [= <- <-]; cbn.
    apply lookup_insert_eq.
Qed.

(** A play command never removes or replaces what is registered once
    the handler holds a subscription. *)
Lemma play_registered env i w g s w1 :
  command_in i "play" g →
  joined i g w = Some (s, w1) →
  subscriptions (handle env i w).1 = subscriptions w1.
Proof.
  intros H Hj. rewrite (play_run env i w g H), Hj.
  pose proof (entersState_subscriptions env s w1) as He.
  destruct (entersState env s w1) as [w2 [ | ]]; cbn in He; [ | exact He ].
  destruct (resolved env i) as [track | ]; [ | exact He ].
  pose proof (on_sub_subscriptions s (Subscription.enqueue track) w2) as Ho.
  destruct (on_sub s _ w2) as [w3 fired]. cbn in Ho |- *. congruence.
Qed.

(** A play command from a member in a voice channel, in a guild without
    a subscription, constructs a new object and registers it. *)
Lemma play_creates env i w g channel :
  command_in i "play" g →
  subscriptions w !! g = None →
  member i = GuildMember (Some channel) →
  joined i g w =
    Some (length (heap w),
          mkWorld (<[g := length (heap w)]> (subscriptions w))
                  (heap w ++ [Subscription.create])) ∧
  EvNew (length (heap w)) ∈ (handle env i w).2 ∧
  subscriptions (handle env i w).1 !! g = Some (length (heap w)).
Proof.
  intros H Hnone Hm.
  assert (Hj : joined i g w =
               Some (length (heap w),
                     mkWorld (<[g := length (heap w)]> (subscriptions w))
                             (heap w ++ [Subscription.create]))).
  { unfold joined. by rewrite Hnone, Hm. }
  split; [ exact Hj | split ].
  - assert (Hpre : ∃ rest, (handle env i w).2 = joining i g w ++ rest).
    { rewrite (play_run env i w g H), Hj.
      destruct (entersState env _ _) as [w2 [ | ]]; [ | by eexists ].
      destruct (resolved env i) as [track | ]; [ | by eexists ].
      destruct (on_sub _ _ w2) as [w3 fired]. by eexists. }
    destruct Hpre as [rest ->]. apply elem_of_app. left.
    unfold joining. rewrite Hnone, Hm.
    apply elem_of_cons. right. apply elem_of_cons. right.
    apply elem_of_cons. right. apply elem_of_cons. by left.
  - rewrite (play_registered env i w g _ _ H Hj). cbn. apply lookup_insert_eq.
Qed.

(** C6: a play command in a guild without a subscription, from a member
    who is in no voice channel, creates nothing: the world is as it was
    and the requester is told to join a voice channel.  A subscription is
    created by a play command only for a member in a voice channel, and
    then it is registered for the guild. *)
Theorem play_creates_only_in_voice env i w g :
  command_in i "play" g →
  subscriptions w !! g = None →
  (not_in_voice i →
     handle env i w =
       (w, [EvGet g None; EvSend (DeferReply (interaction_id i));
            EvSend (FollowUp (interaction_id i)
                      (plain "Join a voice channel and then try that again!"))])) ∧
  (∀ s, EvNew s ∈ (handle env i w).2 →
     ∃ channel, member i = GuildMember (Some channel)) ∧
  (∀ channel, member i = GuildMember (Some channel) →
     EvNew (length (heap w)) ∈ (handle env i w).2 ∧
     subscriptions (handle env i w).1 !! g = Some (length (heap w))).
Proof.
  intros H Hnone.
  assert (Hout : not_in_voice i →
     handle env i w =
       (w, [EvGet g None; EvSend (DeferReply (interaction_id i));
            EvSend (FollowUp (interaction_id i)
                      (plain "Join a voice channel and then try that again!"))])).
  { intros Hv. rewrite (play_run env i w g H). unfold joined, joining.
    rewrite Hnone. destruct Hv as [-> | ->]; reflexivity. }
  split; [ exact Hout | split ].
  - intros s Hin. destruct (member i) as [[channel | ] | ] eqn:Hm.
    + by exists channel.
    + rewrite Hout in Hin by (by right). cbn in Hin.
      repeat (apply elem_of_cons in Hin as [Hin | Hin]; [ discriminate Hin | ]).
      by apply elem_of_nil in Hin.
    + rewrite Hout in Hin by (by left). cbn in Hin.
      repeat (apply elem_of_cons in Hin as [Hin | Hin]; [ discriminate Hin | ]).
      by apply elem_of_nil in Hin.
  - intros channel Hm.
    destruct (play_creates env i w g channel H Hnone Hm) as (_ & Hnew & Hset).
    by split.
Qed.

(** ** Play: the readiness wait *)

(** A wait that fails changes nothing. *)
Lemma entersState_timeout env s w w' :
  entersState env s w = (w', false) → w' = w.
Proof.
  unfold entersState, Subscription.await_ready.
  destruct (heap w !! s) as [sub | ] eqn:Hs; [ | by intros [= <-] ].
  assert (Hid : mkWorld (subscriptions w) (<[s := sub]> (heap w)) = w).
  { rewrite list_insert_id by exact Hs. by destruct w. }
  destruct (voiceConnection sub), (joins env s); intros [= <-]; exact Hid.
Qed.

(** A wait that succeeds has seen the connection Ready, and touched
    neither the player nor the queue. *)
Lemma entersState_ready env s w w' :
  entersState env s w = (w', true) →
  ∃ sub sub', heap w !! s = Some sub ∧ heap w' !! s = Some sub' ∧
    voiceConnection sub' = Ready ∧
    audioPlayer sub' = audioPlayer sub ∧ queue sub' = queue sub ∧
    (voiceConnection sub = Ready → w' = w).
Proof.
  unfold entersState, Subscription.await_ready.
  destruct (heap w !! s) as [sub | ] eqn:Hs; [ | discriminate ].
  assert (Hlt : s < length (heap w)) by (by eapply lookup_lt_Some).
  assert (Hid : mkWorld (subscriptions w) (<[s := sub]> (heap w)) = w).
  { rewrite list_insert_id by exact Hs. by destruct w. }
  destruct (voiceConnection sub) eqn:Hc, (joins env s); intros [= <-];
    eexists sub, _; cbn [heap];
    (split; [ reflexivity | ]);
    (split; [ by apply list_lookup_insert_eq | ]);
    cbn; rewrite ?Hc; repeat split; try discriminate; try (intros _; exact Hid).
Qed.

(** C2: when the wait of a play command for Ready, bounded by 20000 ms,
    fails, the requester is told that joining failed and the handler
    stops there.  The world is the one in which the wait began: the
    subscription is still registered for the guild, its object is as it
    was, the handler calls neither [destroy] nor [delete], and a later
    play command in the guild is served by the same subscription. *)
Theorem join_timeout env i w g s w1 w2 :
  command_in i "play" g →
  joined i g w = Some (s, w1) →
  entersState env s w1 = (w2, false) →
  handle env i w =
    (w1, joining i g w ++
         [EvEntersState s 20000 false; EvCall Warn;
          EvSend (FollowUp (interaction_id i)
                    (plain "Failed to join voice channel within 20 seconds, please try again later!"))]) ∧
  subscriptions (handle env i w).1 !! g = Some s ∧
  heap (handle env i w).1 !! s = heap w1 !! s ∧
  (ConnectionDestroy s ∉ calls (handle env i w).2) ∧
  (RegistryDelete g ∉ calls (handle env i w).2) ∧
  (∀ i', joined i' g (handle env i w).1 = Some (s, (handle env i w).1)).
Proof.
  intros H Hj Hwait.
  assert (Hrun : handle env i w =
    (w1, joining i g w ++
         [EvEntersState s 20000 false; EvCall Warn;
          EvSend (FollowUp (interaction_id i)
                    (plain "Failed to join voice channel within 20 seconds, please try again later!"))])).
  { rewrite (play_run env i w g H), Hj, Hwait.
    by rewrite (entersState_timeout env s w1 w2 Hwait). }
  pose proof (joined_registered i g w s w1 Hj) as Hreg.
  rewrite Hrun. cbn [fst snd].
  split; [ reflexivity | ]. split; [ exact Hreg | ]. split; [ reflexivity | ].
  assert (Hcalls : calls (joining i g w ++
         [EvEntersState s 20000 false; EvCall Warn;
          EvSend (FollowUp (interaction_id i)
                    (plain "Failed to join voice channel within 20 seconds, please try again later!"))])
      = calls (joining i g w) ++ [Warn]).
  { unfold calls. by rewrite omap_app. }
  rewrite Hcalls.
  assert (Hjc : ∀ c, c ∈ calls (joining i g w) →
            ∃ s', c = ListenError s' ∨ c = RegistrySet g s').
  { intros c. unfold joining, calls.
    destruct (subscriptions w !! g), (member i) as [[channel | ] | ]; cbn;
      try (intros Hc; by apply elem_of_nil in Hc).
    intros Hc. exists (length (heap w)).
    apply elem_of_cons in Hc as [Hc | Hc]; [ by left | ].
    apply list_elem_of_singleton in Hc. by right. }
  split; [ | split ].
  - intros Hin. apply elem_of_app in Hin as [Hin | Hin].
    + apply Hjc in Hin as [s' [Hc | Hc]]; discriminate Hc.
    + apply list_elem_of_singleton in Hin. discriminate Hin.
  - intros Hin. apply elem_of_app in Hin as [Hin | Hin].
    + apply Hjc in Hin as [s' [Hc | Hc]]; discriminate Hc.
    + apply list_elem_of_singleton in Hin. discriminate Hin.
  - intros i'. unfold joined. by rewrite Hreg.
Qed.

(** ** Play: resolution *)

Lemma resolution_fails_resolved env i :
  resolution_fails env i ↔ resolved env i = None.
Proof.
  unfold resolution_fails, resolved, chosen_url, track_from. split.
  - intros [[Hv [Hs | Hs]] | (url & Hu & Ht)].
    + by rewrite Hv, Hs.
    + by rewrite Hv, Hs.
    + rewrite Hu. by rewrite Ht.
  - destruct (validateURL env (song i)).
    + destruct (track_info env (song i)) eqn:Ht; [ discriminate | ].
      intros _. right. by exists (song i).
    + destruct (yts env (song i)) as [[ | first rest] | ].
      * intros _. left. auto.
      * destruct (track_info env (video_url first)) eqn:Ht; [ discriminate | ].
        intros _. right. by exists (video_url first).
      * intros _. left. auto.
Qed.

Lemma calls_app evs evs' : calls (evs ++ evs') = calls evs ++ calls evs'.
Proof. apply omap_app. Qed.

Lemma callbacks_app evs evs' : callbacks (evs ++ evs') = callbacks evs ++ callbacks evs'.
Proof. apply omap_app. Qed.

Lemma calls_resolving env songinfo : calls (resolving env songinfo) = [].
Proof.
  unfold resolving, calls. cbn.
  rewrite omap_app.
  destruct (validateURL env songinfo), (chosen_url env songinfo); reflexivity.
Qed.

Lemma callbacks_resolving env songinfo : callbacks (resolving env songinfo) = [].
Proof.
  unfold resolving, callbacks. cbn.
  rewrite omap_app.
  destruct (validateURL env songinfo), (chosen_url env songinfo); reflexivity.
Qed.

Lemma callbacks_joining i g w : callbacks (joining i g w) = [].
Proof.
  unfold joining, callbacks.
  destruct (subscriptions w !! g), (member i) as [[channel | ] | ]; reflexivity.
Qed.

Lemma calls_joining_enqueue i g w s t : Enqueue s t ∉ calls (joining i g w).
Proof.
  unfold joining, calls.
  destruct (subscriptions w !! g), (member i) as [[channel | ] | ]; cbn;
    try apply not_elem_of_nil.
  intros Hin. apply elem_of_cons in Hin as [Hin | Hin]; [ discriminate Hin | ].
  apply list_elem_of_singleton in Hin. discriminate Hin.
Qed.

(** C3: when the resolution of a play request fails, after the
    connection was seen Ready, the requester is told that playing
    failed; [enqueue] is not called and no callback fires; the world is
    the one in which resolution began, so the subscription is still
    registered and its object, queue and connection included, is as it
    was. *)
Theorem resolution_failure env i w g s w1 w2 :
  command_in i "play" g →
  joined i g w = Some (s, w1) →
  entersState env s w1 = (w2, true) →
  resolution_fails env i →
  handle env i w =
    (w2, joining i g w ++ EvEntersState s 20000 true ::
         resolving env (song i) ++
         [EvCall Warn;
          EvSend (FollowUp (interaction_id i)
                    (plain "Failed to play track, please try again later!"))]) ∧
  (∀ s' t, Enqueue s' t ∉ calls (handle env i w).2) ∧
  callbacks (handle env i w).2 = [] ∧
  subscriptions (handle env i w).1 !! g = Some s ∧
  heap (handle env i w).1 !! s = heap w2 !! s ∧
  (∀ sub1, heap w1 !! s = Some sub1 →
     ∃ sub, heap (handle env i w).1 !! s = Some sub ∧
       queue sub = queue sub1 ∧ audioPlayer sub = audioPlayer sub1 ∧
       voiceConnection sub = Ready).
Proof.
  intros H Hj Hwait Hfail.
  apply resolution_fails_resolved in Hfail.
  assert (Hrun : handle env i w =
    (w2, joining i g w ++ EvEntersState s 20000 true ::
         resolving env (song i) ++ failed_to_play i)).
  { by rewrite (play_run env i w g H), Hj, Hwait, Hfail. }
  rewrite Hrun. unfold failed_to_play. cbn [fst snd].
  split; [ reflexivity | ].
  split; [ | split; [ | split; [ | split ] ] ].
  - intros s' t.
    change (EvEntersState s 20000 true :: ?l) with ([EvEntersState s 20000 true] ++ l).
    rewrite !calls_app, calls_resolving. cbn.
    rewrite elem_of_app. intros [Hin | Hin].
    + by apply calls_joining_enqueue in Hin.
    + apply list_elem_of_singleton in Hin. discriminate Hin.
  - change (EvEntersState s 20000 true :: ?l) with ([EvEntersState s 20000 true] ++ l).
    by rewrite !callbacks_app, callbacks_joining, callbacks_resolving.
  - pose proof (entersState_subscriptions env s w1) as He.
    rewrite Hwait in He. cbn in He. rewrite He.
    by eapply joined_registered.
  - reflexivity.
  - intros sub1 Hs1.
    destruct (entersState_ready env s w1 w2 Hwait)
      as (sub & sub' & Hs & Hs' & Hc & Hp & Hq & _).
    exists sub'. rewrite Hs1 in Hs. injection Hs as <-. auto.
Qed.

(** ** Play: the order of connecting, waiting, resolving and enqueueing *)

Lemma joining_phase i g w :
  Forall (λ e, waits e = false ∧ resolves e = false ∧ enqueues e = false) (joining i g w).
Proof.
  unfold joining.
  destruct (subscriptions w !! g), (member i) as [[channel | ] | ];
    repeat constructor.
Qed.

Lemma resolving_phase env songinfo :
  Forall (λ e, resolves e = true) (resolving env songinfo).
Proof.
  unfold resolving.
  destruct (validateURL env songinfo), (chosen_url env songinfo); repeat constructor.
Qed.

(** What [enqueue] reports are callbacks of tracks. *)
Lemma enqueue_fires s t w :
  Forall (λ e, ∃ k t', e = EvCallback k t') (on_sub s (Subscription.enqueue t) w).2.
Proof.
  unfold on_sub. destruct (heap w !! s) as [sub | ]; [ | constructor ].
  unfold Subscription.enqueue, Subscription.play_front.
  destruct (audioPlayer sub), (voiceConnection sub); cbn; try constructor.
  destruct (queue sub); cbn; repeat constructor; eauto.
Qed.

Lemma not_enqueued_in (evs : list Event) :
  Forall (λ e, enqueues e = false) evs → ∀ s t, EvCall (Enqueue s t) ∉ evs.
Proof.
  intros Hall s t Hin. rewrite Forall_forall in Hall.
  specialize (Hall _ Hin). discriminate Hall.
Qed.

(** C5: in a play command [enqueue] is reached only through a wait that
    saw the connection Ready within 20000 ms.  A trace with a failed wait
    has no [enqueue]; a trace with an [enqueue] splits into the joining
    phase (no wait, no resolution, no enqueue), the successful wait on
    the same subscription, the resolution, the [enqueue], and its
    aftermath, in which nothing connects, waits, resolves or enqueues;
    and the connection of that subscription is Ready in the world in
    which resolution starts. *)
Theorem enqueue_only_after_ready env i w g :
  command_in i "play" g →
  (∀ s ms, EvEntersState s ms false ∈ (handle env i w).2 →
     ∀ s' t, EvCall (Enqueue s' t) ∉ (handle env i w).2) ∧
  (∀ s t, EvCall (Enqueue s t) ∈ (handle env i w).2 →
     ∃ pre res post w1 w2,
       (handle env i w).2 =
         pre ++ EvEntersState s 20000 true :: res ++ EvCall (Enqueue s t) :: post ∧
       Forall (λ e, waits e = false ∧ resolves e = false ∧ enqueues e = false) pre ∧
       Forall (λ e, resolves e = true) res ∧
       Forall (λ e, connects e = false ∧ waits e = false ∧
                    resolves e = false ∧ enqueues e = false) post ∧
       joined i g w = Some (s, w1) ∧
       entersState env s w1 = (w2, true) ∧
       ∃ sub, heap w2 !! s = Some sub ∧ voiceConnection sub = Ready).
Proof.
  intros H. rewrite (play_run env i w g H).
  pose proof (joining_phase i g w) as Hpre.
  assert (Hpre' : Forall (λ e, enqueues e = false) (joining i g w)).
  { eapply Forall_impl; [ exact Hpre | ]. cbn. tauto. }
  assert (Hpre'' : ∀ s ms b, EvEntersState s ms b ∉ joining i g w).
  { intros s ms b Hin. rewrite Forall_forall in Hpre.
    destruct (Hpre _ Hin) as [Hw _]. discriminate Hw. }
  destruct (joined i g w) as [[s w1] | ] eqn:Hj.
  - destruct (entersState env s w1) as [w2 [ | ]] eqn:Hwait.
    + destruct (resolved env i) as [track | ] eqn:Hres.
      * pose proof (enqueue_fires s track w2) as Hfired.
        destruct (on_sub s (Subscription.enqueue track) w2) as [w3 fired].
        cbn [fst snd] in *. split.
        -- intros s0 ms Hin. exfalso.
           apply elem_of_app in Hin as [Hin | Hin]; [ by apply Hpre'' in Hin | ].
           apply elem_of_cons in Hin as [Hin | Hin]; [ discriminate Hin | ].
           apply elem_of_app in Hin as [Hin | Hin].
           { pose proof (resolving_phase env (song i)) as Hr.
             rewrite Forall_forall in Hr. specialize (Hr _ Hin). discriminate Hr. }
           apply elem_of_cons in Hin as [Hin | Hin]; [ discriminate Hin | ].
           apply elem_of_app in Hin as [Hin | Hin].
           { rewrite Forall_forall in Hfired.
             destruct (Hfired _ Hin) as (k & t' & He). discriminate He. }
           apply list_elem_of_singleton in Hin. discriminate Hin.
        -- intros s0 t Hin.
           assert (Heq : s0 = s ∧ t = track).
           { apply elem_of_app in Hin as [Hin | Hin];
               [ by apply (not_enqueued_in _ Hpre') in Hin | ].
             apply elem_of_cons in Hin as [Hin | Hin]; [ discriminate Hin | ].
             apply elem_of_app in Hin as [Hin | Hin].
             { pose proof (resolving_phase env (song i)) as Hr.
               rewrite Forall_forall in Hr. specialize (Hr _ Hin).
               discriminate Hr. }
             apply elem_of_cons in Hin as [Hin | Hin]; [ by injection Hin | ].
             apply elem_of_app in Hin as [Hin | Hin].
             { rewrite Forall_forall in Hfired.
               destruct (Hfired _ Hin) as (k & t' & He). discriminate He. }
             apply list_elem_of_singleton in Hin. discriminate Hin. }
           destruct Heq as [-> ->].
           destruct (entersState_ready env s w1 w2 Hwait)
             as (sub & sub' & _ & Hs' & Hc & _).
           eexists (joining i g w), (resolving env (song i)), _, w1, w2.
           split; [ reflexivity | ].
           split; [ exact Hpre | ].
           split; [ apply resolving_phase | ].
           split; [ | eauto ].
           apply Forall_app. split.
           ++ eapply Forall_impl; [ exact Hfired | ].
              intros e (k & t' & ->). auto.
           ++ repeat constructor.
      * cbn [fst snd]. split.
        -- intros _ _ _ s' t Hin.
           apply elem_of_app in Hin as [Hin | Hin];
             [ by apply (not_enqueued_in _ Hpre') in Hin | ].
           apply elem_of_cons in Hin as [Hin | Hin]; [ discriminate Hin | ].
           apply elem_of_app in Hin as [Hin | Hin].
           { pose proof (resolving_phase env (song i)) as Hr.
             rewrite Forall_forall in Hr. specialize (Hr _ Hin). discriminate Hr. }
           unfold failed_to_play in Hin.
           apply elem_of_cons in Hin as [Hin | Hin]; [ discriminate Hin | ].
           apply list_elem_of_singleton in Hin. discriminate Hin.
        -- intros s0 t Hin. exfalso.
           apply elem_of_app in Hin as [Hin | Hin];
             [ by apply (not_enqueued_in _ Hpre') in Hin | ].
           apply elem_of_cons in Hin as [Hin | Hin]; [ discriminate Hin | ].
           apply elem_of_app in Hin as [Hin | Hin].
           { pose proof (resolving_phase env (song i)) as Hr.
             rewrite Forall_forall in Hr. specialize (Hr _ Hin). discriminate Hr. }
           unfold failed_to_play in Hin.
           apply elem_of_cons in Hin as [Hin | Hin]; [ discriminate Hin | ].
           apply list_elem_of_singleton in Hin. discriminate Hin.
    + cbn [fst snd].
      assert (Hno : ∀ s' t, EvCall (Enqueue s' t) ∉
                      joining i g w ++ EvEntersState s 20000 false :: failed_to_join i).
      { intros s' t Hin.
        apply elem_of_app in Hin as [Hin | Hin];
          [ by apply (not_enqueued_in _ Hpre') in Hin | ].
        unfold failed_to_join in Hin.
        repeat (apply elem_of_cons in Hin as [Hin | Hin]; [ discriminate Hin | ]).
        by apply elem_of_nil in Hin. }
      split; [ intros _ _ _; exact Hno | ].
      intros s0 t Hin. by apply Hno in Hin.
  - cbn [fst snd].
    assert (Hno : ∀ s' t, EvCall (Enqueue s' t) ∉
              joining i g w ++
              [EvSend (FollowUp (interaction_id i)
                         (plain "Join a voice channel and then try that again!"))]).
    { intros s' t Hin.
      apply elem_of_app in Hin as [Hin | Hin];
        [ by apply (not_enqueued_in _ Hpre') in Hin | ].
      apply list_elem_of_singleton in Hin. discriminate Hin. }
    split; [ intros _ _ _; exact Hno | ].
    intros s0 t Hin. by apply Hno in Hin.
Qed.

(** ** Skip *)

(** The Idle reaction takes the head of the queue, and only the head. *)
Lemma on_idle_advances sub :
  match queue sub with
  | [] => Subscription.on_idle sub = (mkSub (voiceConnection sub) Idle [], [])
  | next :: rest =>
      Subscription.on_idle sub =
        (mkSub (voiceConnection sub) (Active Playing next) rest,
         [EvCallback OnStart next])
  end.
Proof.
  unfold Subscription.on_idle, Subscription.play_front. cbn.
  destruct (queue sub); reflexivity.
Qed.

(** C7: the skip command does one thing to the subscription: it calls
    [stop] on its player.  The handler neither reads the subscription nor
    calls anything else on it or on the registry.  On an Idle player the
    world, the queue with it, is as it was; on a player that is not Idle
    the subscription becomes what the Idle reaction [on_idle] makes of
    it, and that reaction is where the head of the queue is taken. *)
Theorem skip_only_stops env i w g s sub :
  command_in i "skip" g →
  subscriptions w !! g = Some s →
  heap w !! s = Some sub →
  calls (handle env i w).2 = [PlayerStop s] ∧
  (∀ s', EvRead s' ∉ (handle env i w).2) ∧
  sent (handle env i w).2 = [Reply (interaction_id i) (plain "Skipped song!")] ∧
  subscriptions (handle env i w).1 = subscriptions w ∧
  (audioPlayer sub = Idle → (handle env i w).1 = w) ∧
  (audioPlayer sub ≠ Idle →
     heap (handle env i w).1 = <[s := (Subscription.on_idle sub).1]> (heap w) ∧
     (handle env i w).2 =
       [EvGet g (Some s); EvCall (PlayerStop s)] ++ (Subscription.on_idle sub).2 ++
       [EvSend (Reply (interaction_id i) (plain "Skipped song!"))]).
Proof.
  intros H Hreg Hs.
  assert (Hrun : handle env i w =
            (let '(sub', fired) := Subscription.stop sub in
             (mkWorld (subscriptions w) (<[s := sub']> (heap w)),
              [EvGet g (Some s); EvCall (PlayerStop s)] ++ fired ++
              [EvSend (Reply (interaction_id i) (plain "Skipped song!"))]))).
  { enter_branch H. rewrite Hreg. cbn [go spend exec_call]. unfold on_sub.
    rewrite Hs. destruct (Subscription.stop sub) as [sub' fired].
    cbn. by rewrite ?app_nil_r. }
  rewrite Hrun. clear Hrun. unfold Subscription.stop.
  destruct (audioPlayer sub) as [ | status playing] eqn:Hp.
  - cbn. repeat split; try done.
    + intros s' Hin.
      repeat (apply elem_of_cons in Hin as [Hin | Hin]; [ discriminate Hin | ]).
      by apply elem_of_nil in Hin.
    + intros _. rewrite list_insert_id by exact Hs. by destruct w.
  - pose proof (on_idle_advances sub) as Hadv.
    destruct (queue sub) as [ | next rest]; rewrite Hadv; cbn; repeat split; try done.
    + intros s' Hin.
      repeat (apply elem_of_cons in Hin as [Hin | Hin]; [ discriminate Hin | ]).
      by apply elem_of_nil in Hin.
    + intros s' Hin.
      repeat (apply elem_of_cons in Hin as [Hin | Hin]; [ discriminate Hin | ]).
      by apply elem_of_nil in Hin.
Qed.

(** ** Queue *)

(** C8: the queue command replies with the line about the player, an
    empty line, and one numbered line per track for the first 5 tracks of
    the queue at most, in the order of the queue; it changes nothing.
    The first line names the track of the player when the player is not
    Idle, and says that nothing is playing when it is. *)
Theorem queue_listing env i w g s sub :
  command_in i "queue" g →
  subscriptions w !! g = Some s →
  heap w !! s = Some sub →
  handle env i w =
    (w, [EvGet g (Some s); EvRead s;
         EvSend (Reply (interaction_id i)
                   (plain (current_line sub +:+ nl +:+ nl +:+
                           join nl (queue_lines sub))))]) ∧
  length (queue_lines sub) = min 5 (length (queue sub)) ∧
  (∀ n, queue_lines sub !! n =
          if decide (n < 5)
          then (λ track, string_of_nat (n + 1) +:+ ") " +:+ title track) <$> queue sub !! n
          else None) ∧
  (audioPlayer sub = Idle → current_line sub = "Nothing is currently playing!") ∧
  (∀ status track, audioPlayer sub = Active status track →
     current_line sub = "Playing **" +:+ title track +:+ "**").
Proof.
  intros H Hreg Hs. split; [ | split; [ | split; [ | split ] ] ].
  - enter_branch H. rewrite Hreg. cbn [go spend].
    by rewrite (list_lookup_total_correct _ _ _ Hs).
  - unfold queue_lines, slice. by rewrite length_imap, length_take, drop_0.
  - intros n. unfold queue_lines, slice.
    rewrite list_lookup_imap, drop_0. cbn [Nat.sub].
    destruct (decide (n < 5)) as [Hlt | Hge].
    + by rewrite lookup_take_lt.
    + rewrite lookup_take_ge by lia. reflexivity.
  - unfold current_line. by intros ->.
  - unfold current_line. by intros status track ->.
Qed.

(** ** Leave *)

(** The heap after a play command that constructs: one object more, the
    earlier ones as they were, and the new one as the wait, the
    resolution and the enqueue of this command left it. *)
Lemma constructed_object_after_play env i w g channel :
  command_in i "play" g →
  subscriptions w !! g = None →
  member i = GuildMember (Some channel) →
  length (heap (handle env i w).1) = S (length (heap w)) ∧
  (∀ s, s < length (heap w) → heap (handle env i w).1 !! s = heap w !! s) ∧
  (heap (handle env i w).1 !! length (heap w) = Some Subscription.create ∨
   heap (handle env i w).1 !! length (heap w) = Some (mkSub Ready Idle []) ∨
   ∃ track, resolved env i = Some track ∧
     heap (handle env i w).1 !! length (heap w) =
       Some (mkSub Ready (Active Playing track) [])).
Proof.
  intros H Hnone Hm.
  destruct (play_creates env i w g channel H Hnone Hm) as (Hj & _ & _).
  rewrite (play_run env i w g H), Hj.
  set (n := length (heap w)).
  assert (Hnew : (heap w ++ [Subscription.create]) !! n = Some Subscription.create).
  { rewrite lookup_app_r by (unfold n; lia). by rewrite Nat.sub_diag. }
  assert (Hlen : n < length (heap w ++ [Subscription.create])).
  { rewrite length_app. cbn. unfold n. lia. }
  assert (Hold : ∀ x s, s < n →
            <[n := x]> (heap w ++ [Subscription.create]) !! s = heap w !! s).
  { intros x s Hs. rewrite list_lookup_insert_ne by lia. by apply lookup_app_l. }
  unfold entersState. cbn [heap subscriptions]. rewrite Hnew.
  unfold Subscription.await_ready. cbn [Subscription.create voiceConnection audioPlayer queue].
  destruct (joins env n).
  - destruct (resolved env i) as [track | ] eqn:Hres.
    + unfold on_sub. cbn [heap subscriptions].
      rewrite list_lookup_insert_eq by exact Hlen.
      unfold Subscription.enqueue, Subscription.play_front.
      cbn [voiceConnection audioPlayer queue app fst snd heap].
      rewrite list_insert_insert_eq.
      split; [ | split ].
      * rewrite length_insert, length_app. cbn. unfold n. lia.
      * apply Hold.
      * right. right. exists track. split; [ reflexivity | ].
        by apply list_lookup_insert_eq.
    + cbn [fst heap]. split; [ | split ].
      * rewrite length_insert, length_app. cbn. unfold n. lia.
      * apply Hold.
      * right. left. by apply list_lookup_insert_eq.
  - cbn [fst heap]. split; [ | split ].
    + rewrite length_insert, length_app. cbn. unfold n. lia.
    + apply Hold.
    + left. by apply list_lookup_insert_eq.
Qed.

(** C4: the leave command on a guild with a subscription destroys its
    connection, which leaves the object Destroyed with an empty queue,
    and removes it from the registry; no callback of a track is invoked.
    A later play command in the guild, from a member in a voice channel,
    constructs a new object, distinct from the old one, and registers
    it: after that command the heap has one object more, the new object
    holds nothing of the old queue (it is as constructed, or Ready and
    Idle, or Ready and playing the track just requested), and the old
    object is still Destroyed with an empty queue. *)
Theorem leave_tears_down env i w g s sub :
  command_in i "leave" g →
  subscriptions w !! g = Some s →
  heap w !! s = Some sub →
  (handle env i w).2 =
    [EvGet g (Some s); EvCall (ConnectionDestroy s); EvCall (RegistryDelete g);
     EvSend (Reply (interaction_id i) (private "Left channel!"))] ∧
  callbacks (handle env i w).2 = [] ∧
  subscriptions (handle env i w).1 = delete g (subscriptions w) ∧
  subscriptions (handle env i w).1 !! g = None ∧
  heap (handle env i w).1 = <[s := mkSub Destroyed (audioPlayer sub) []]> (heap w) ∧
  heap (handle env i w).1 !! s = Some (mkSub Destroyed (audioPlayer sub) []) ∧
  (∀ env' i' channel,
     command_in i' "play" g →
     member i' = GuildMember (Some channel) →
     ∃ s' w1,
       joined i' g (handle env i w).1 = Some (s', w1) ∧
       s' ≠ s ∧ heap (handle env i w).1 !! s' = None ∧
       heap w1 !! s' = Some Subscription.create ∧
       EvNew s' ∈ (handle env' i' (handle env i w).1).2 ∧
       subscriptions (handle env' i' (handle env i w).1).1 !! g = Some s' ∧
       length (heap (handle env' i' (handle env i w).1).1) =
         S (length (heap (handle env i w).1)) ∧
       (heap (handle env' i' (handle env i w).1).1 !! s' = Some Subscription.create ∨
        heap (handle env' i' (handle env i w).1).1 !! s' = Some (mkSub Ready Idle []) ∨
        ∃ track, resolved env' i' = Some track ∧
          heap (handle env' i' (handle env i w).1).1 !! s' =
            Some (mkSub Ready (Active Playing track) [])) ∧
       heap (handle env' i' (handle env i w).1).1 !! s =
         Some (mkSub Destroyed (audioPlayer sub) [])).
Proof.
  intros H Hreg Hs.
  assert (Hlt : s < length (heap w)) by (by eapply lookup_lt_Some).
  assert (Hrun : handle env i w =
    (mkWorld (delete g (subscriptions w))
             (<[s := mkSub Destroyed (audioPlayer sub) []]> (heap w)),
     [EvGet g (Some s); EvCall (ConnectionDestroy s); EvCall (RegistryDelete g);
      EvSend (Reply (interaction_id i) (private "Left channel!"))])).
  { enter_branch H. rewrite Hreg. cbn [go spend exec_call]. unfold on_sub.
    rewrite Hs. reflexivity. }
  rewrite Hrun. cbn [fst snd subscriptions heap].
  repeat split.
  - apply lookup_delete_eq.
  - by apply list_lookup_insert_eq.
  - intros env' i' channel H' Hm'.
    set (w' := mkWorld (delete g (subscriptions w))
                       (<[s := mkSub Destroyed (audioPlayer sub) []]> (heap w))).
    assert (Hnone : subscriptions w' !! g = None) by apply lookup_delete_eq.
    destruct (play_creates env' i' w' g channel H' Hnone Hm') as (Hj & Hnew & Hset).
    assert (Hlen : length (heap w') = length (heap w)) by apply length_insert.
    eexists (length (heap w')), _. split; [ exact Hj | ].
    split; [ lia | ].
    split; [ by apply lookup_ge_None | ].
    split; [ cbn [heap]; rewrite lookup_app_r by lia; by rewrite Nat.sub_diag | ].
    split; [ exact Hnew | ]. split; [ exact Hset | ].
    destruct (constructed_object_after_play env' i' w' g channel H' Hnone Hm')
      as (Hgrow & Hkeep & Hobj).
    split; [ exact Hgrow | ]. split; [ exact Hobj | ].
    rewrite (Hkeep s) by lia. cbn [heap]. by apply list_lookup_insert_eq.
Qed.

(** ** Turns and runs *)

(** A run to completion ends at [Return]. *)
Lemma go_completes env p : ∀ w, (go env None p w).2 = Return.
Proof.
  induction p as [ | g k IH | c k IH | s k IH | text k IH | c k IH | m k IH
                 | s ms k IH | text k IH | url i k IH ]; intros w; cbn [go spend].
  - reflexivity.
  - specialize (IH (subscriptions w !! g) w). by destruct (go env None _ w) as [[? ?] ?].
  - specialize (IH (length (heap w))
                   (mkWorld (subscriptions w) (heap w ++ [Subscription.create]))).
    cbn [alloc]. by destruct (go env None _ _) as [[? ?] ?].
  - specialize (IH (heap w !!! s) w). by destruct (go env None _ w) as [[? ?] ?].
  - specialize (IH (validateURL env text) w). by destruct (go env None _ w) as [[? ?] ?].
  - destruct (exec_call c w) as [w' evs]. specialize (IH w').
    by destruct (go env None _ w') as [[? ?] ?].
  - specialize (IH w). by destruct (go env None _ w) as [[? ?] ?].
  - destruct (entersState env s w) as [w' ok]. specialize (IH ok w').
    by destruct (go env None _ w') as [[? ?] ?].
  - specialize (IH (yts env text) w). by destruct (go env None _ w) as [[? ?] ?].
  - specialize (IH (track_from env url i) w). by destruct (go env None _ w) as [[? ?] ?].
Qed.

(** Stopping at an [await] and completing from there is completing. *)
Lemma go_resume env p : ∀ n w,
  go env None p w =
    (let '(w1, evs, p1) := go env (Some n) p w in emit evs (go env None p1 w1)).
Proof.
  assert (Hstep : ∀ evs (a b : World * list Event * Prog),
            a = (let '(w1, evs1, p1) := b in emit evs1 (go env None p1 w1)) →
            emit evs a =
            (let '(w1, evs1, p1) := emit evs b in emit evs1 (go env None p1 w1))).
  { intros evs a [[w1 evs1] p1] ->. cbn [emit]. by rewrite emit_app. }
  assert (Hstop : ∀ r : World * list Event * Prog, r = emit [] r).
  { by intros [[? ?] ?]. }
  induction p as [ | g k IH | c k IH | s k IH | text k IH | c k IH | m k IH
                 | s ms k IH | text k IH | url i k IH ]; intros n w.
  - reflexivity.
  - cbn [go]. apply Hstep, IH.
  - cbn [go alloc]. apply Hstep, IH.
  - cbn [go]. apply Hstep, IH.
  - cbn [go]. apply Hstep, IH.
  - cbn [go]. destruct (exec_call c w) as [w' evs]. apply Hstep, IH.
  - destruct n as [ | n]; cbn [go spend]; [ apply Hstop | apply Hstep, IH ].
  - destruct n as [ | n]; cbn [go spend]; [ apply Hstop | ].
    destruct (entersState env s w) as [w' ok]. apply Hstep, IH.
  - destruct n as [ | n]; cbn [go spend]; [ apply Hstop | apply Hstep, IH ].
  - destruct n as [ | n]; cbn [go spend]; [ apply Hstop | apply Hstep, IH ].
Qed.

(** From where a handler is suspended, enough turns of its own complete
    it, with the events of the run to completion. *)
Lemma suspended_handler_completes env p : ∀ budget w,
  let '(w1, _, p1) := go env (Some budget) p w in
  ∃ n, run_schedule env (replicate n 0) [p1] w1 =
         (let '(w2, evs, p2) := go env None p1 w1 in (w2, evs, [p2])).
Proof.
  assert (Hturn : ∀ (p : Prog) w w' ev (q : Prog),
            is_await p = true →
            go env (Some 1) p w = emit [ev] (go env (Some 0) q w') →
            go env None p w = emit [ev] (go env None q w') →
            (let '(w1, _, p1) := go env (Some 0) q w' in
             ∃ n, run_schedule env (replicate n 0) [p1] w1 =
                    (let '(w2, evs, p2) := go env None p1 w1 in (w2, evs, [p2]))) →
            ∃ n, run_schedule env (replicate n 0) [p] w =
                   (let '(w2, evs, p2) := go env None p w in (w2, evs, [p2]))).
  { intros p0 w w' ev q Hp H1 Hall IH.
    rewrite Hall, (go_resume env q 0 w').
    destruct (go env (Some 0) q w') as [[w1 e1] p1] eqn:Hq.
    destruct IH as [n IH]. exists (S n).
    cbn [replicate run_schedule lookup list_lookup]. unfold turn.
    rewrite Hp, H1. cbn [emit list_insert insert]. rewrite IH.
    destruct (go env None p1 w1) as [[w2 e2] p2]. reflexivity. }
  induction p as [ | g k IH | c k IH | s k IH | text k IH | c k IH | m k IH
                 | s ms k IH | text k IH | url i k IH ]; intros budget w.
  - exists 0. reflexivity.
  - cbn [go]. specialize (IH (subscriptions w !! g) budget w).
    by destruct (go env (Some budget) _ w) as [[? ?] ?].
  - cbn [go alloc].
    specialize (IH (length (heap w)) budget
                   (mkWorld (subscriptions w) (heap w ++ [Subscription.create]))).
    by destruct (go env (Some budget) _ _) as [[? ?] ?].
  - cbn [go]. specialize (IH (heap w !!! s) budget w).
    by destruct (go env (Some budget) _ w) as [[? ?] ?].
  - cbn [go]. specialize (IH (validateURL env text) budget w).
    by destruct (go env (Some budget) _ w) as [[? ?] ?].
  - cbn [go]. destruct (exec_call c w) as [w' evs]. specialize (IH budget w').
    by destruct (go env (Some budget) _ w') as [[? ?] ?].
  - destruct budget as [ | budget].
    + change (go env (Some 0) (AwaitSend m k) w) with (w, @nil Event, AwaitSend m k).
      cbv iota beta.
      eapply (Hturn _ w w (EvSend m) k); try reflexivity. apply IH.
    + cbn [go spend]. specialize (IH budget w).
      by destruct (go env (Some budget) _ w) as [[? ?] ?].
  - destruct budget as [ | budget].
    + change (go env (Some 0) (AwaitEntersState s ms k) w)
        with (w, @nil Event, AwaitEntersState s ms k).
      cbv iota beta.
      destruct (entersState env s w) as [w' ok] eqn:He.
      eapply (Hturn _ w w' (EvEntersState s ms ok) (k ok)); try reflexivity.
      * cbn [go spend]. by rewrite He.
      * cbn [go spend]. by rewrite He.
      * apply IH.
    + cbn [go spend]. destruct (entersState env s w) as [w' ok].
      specialize (IH ok budget w').
      by destruct (go env (Some budget) _ w') as [[? ?] ?].
  - destruct budget as [ | budget].
    + change (go env (Some 0) (AwaitSearch text k) w)
        with (w, @nil Event, AwaitSearch text k).
      cbv iota beta.
      eapply (Hturn _ w w (EvSearch text) (k (yts env text))); try reflexivity. apply IH.
    + cbn [go spend]. specialize (IH (yts env text) budget w).
      by destruct (go env (Some budget) _ w) as [[? ?] ?].
  - destruct budget as [ | budget].
    + change (go env (Some 0) (AwaitTrackFrom url i k) w)
        with (w, @nil Event, AwaitTrackFrom url i k).
      cbv iota beta.
      eapply (Hturn _ w w (EvTrackFrom url) (k (track_from env url i))); try reflexivity.
      apply IH.
    + cbn [go spend]. specialize (IH (track_from env url i) budget w).
      by destruct (go env (Some budget) _ w) as [[? ?] ?].
Qed.

(** A handler scheduled alone completes after enough turns, and then the
    world and the events are those of [run]: the turns are a refinement
    of the run to completion, not another semantics. *)
Lemma lone_handler_is_run env p w :
  ∃ n, run_schedule env (replicate n 0) [p] w =
         (let '(w', evs) := run env p w in (w', evs, [Return])).
Proof.
  unfold run.
  pose proof (suspended_handler_completes env p (if is_await p then 1 else 0) w) as Hs.
  pose proof (go_resume env p (if is_await p then 1 else 0) w) as Hr.
  pose proof (go_completes env p w) as Hc.
  destruct (go env (Some _) p w) as [[w1 e1] p1] eqn:Hfirst.
  destruct Hs as [n Hs]. exists (S n).
  cbn [replicate run_schedule lookup list_lookup]. unfold turn.
  rewrite Hfirst. cbn [list_insert insert]. rewrite Hs.
  rewrite Hr in Hc |- *.
  destruct (go env None p1 w1) as [[w2 e2] p2]. cbn in Hc |- *. by subst p2.
Qed.

(** ** Two play commands for one guild *)

Lemma play_tree i g :
  command_in i "play" g → interactionCreate i = Get g (play i g).
Proof.
  intros (Hcmd & Hguild & Hne & Hname). unfold interactionCreate.
  rewrite Hcmd, Hguild, Hname. cbn [negb].
  destruct (decide (g = EmptyString)) as [Heq | _]; [ contradiction | ].
  destruct (decide ("play" = "play")) as [_ | Hd]; [ reflexivity | ].
  exfalso. by apply Hd.
Qed.

(** One after the other: a play command that starts when an earlier one
    of the guild has completed is served by the subscription of the
    earlier one and constructs nothing. *)
Lemma later_play_shares env i i' w g s w1 :
  command_in i "play" g →
  joined i g w = Some (s, w1) →
  joined i' g (handle env i w).1 = Some (s, (handle env i w).1).
Proof.
  intros H Hj. unfold joined at 1.
  rewrite (play_registered env i w g s w1 H Hj).
  by rewrite (joined_registered i g w s w1 Hj).
Qed.

(** Interleaved: when the second command is dispatched while the first
    is suspended at [await interaction.deferReply()] (line 104), both
    handlers have read the registry (line 101) before either writes it
    (line 125), both construct a subscription, and each goes on with its
    own; the registry keeps the second. *)
Lemma racing_play_commands env w g i1 i2 channel1 channel2 :
  command_in i1 "play" g →
  command_in i2 "play" g →
  member i1 = GuildMember (Some channel1) →
  member i2 = GuildMember (Some channel2) →
  subscriptions w !! g = None →
  let '(w', evs, handlers) :=
    run_schedule env [0; 1; 0; 1] [interactionCreate i1; interactionCreate i2] w in
  created evs = [length (heap w); S (length (heap w))] ∧
  waiting_on <$> handlers = [Some (length (heap w)); Some (S (length (heap w)))] ∧
  subscriptions w' !! g = Some (S (length (heap w))) ∧
  heap w' = heap w ++ [Subscription.create; Subscription.create].
Proof.
  intros H1 H2 Hm1 Hm2 Hnone.
  rewrite (play_tree i1 g H1), (play_tree i2 g H2).
  unfold run_schedule, turn, play, join_if_absent.
  cbn [lookup list_lookup is_await go spend emit list_insert insert app].
  rewrite Hnone. cbn [lookup list_lookup is_await go spend emit list_insert insert app].
  rewrite Hm1, Hm2.
  cbn [lookup list_lookup is_await go spend emit list_insert insert app alloc
       exec_call subscriptions heap waiting_on fmap list_fmap created omap list_omap].
  rewrite length_app. cbn [length]. rewrite Nat.add_1_r.
  repeat split.
  - apply lookup_insert_eq.
  - by rewrite <- app_assoc.
Qed.

(** C1: the handler at two play commands racing on a guild that has no
    subscription.  Both handlers run to their end; two subscriptions are
    constructed, 0 and 1; the first handler enqueues its track on 0, the
    second on 1; both objects end up playing, and the registry knows only
    the second. *)
Theorem two_subscriptions_for_one_guild :
  let '(w, evs, handlers) :=
    run_schedule Race.env Race.schedule
      [interactionCreate Race.first_request; interactionCreate Race.second_request]
      Race.start in
  handlers = [Return; Return] ∧
  created evs = [0; 1] ∧
  calls evs =
    [ListenError 0; RegistrySet "guild" 0; ListenError 1; RegistrySet "guild" 1;
     Enqueue 0 Race.first_track; Enqueue 1 Race.second_track] ∧
  subscriptions w !! "guild" = Some 1 ∧
  heap w = [mkSub Ready (Active Playing Race.first_track) [];
            mkSub Ready (Active Playing Race.second_track) []].
Proof. vm_compute. repeat split. Qed.

(** ** The theorems at concrete inputs *)

Lemma command_in_guild name : command_in (Fixture.command name) name "guild".
Proof. unfold command_in, Fixture.command. cbn. repeat split. discriminate. Defined.

Lemma ignored_interaction_witness :
  handle Fixture.deaf Fixture.button Fixture.busy = (Fixture.busy, []).
Proof. apply ignored_interaction. left. reflexivity. Defined.

Lemma no_session_reply_witness :
  handle Fixture.deaf (Fixture.command "leave") Race.start =
    (Race.start,
     [EvGet "guild" None;
      EvSend (Reply "7" (plain "Not playing in this server!"))]).
Proof.
  apply (no_session_reply Fixture.deaf (Fixture.command "leave") Race.start "guild" "leave").
  - unfold session_commands. repeat (apply elem_of_cons; first [ by left | right ]).
  - apply command_in_guild.
  - reflexivity.
Defined.

Lemma play_creates_only_in_voice_witness :
  not_in_voice (Fixture.command "play") ∧
  handle Fixture.deaf (Fixture.command "play") Race.start =
    (Race.start,
     [EvGet "guild" None; EvSend (DeferReply "7");
      EvSend (FollowUp "7" (plain "Join a voice channel and then try that again!"))]).
Proof.
  assert (Hout : not_in_voice (Fixture.command "play")) by (right; reflexivity).
  split; [ exact Hout | ].
  apply (play_creates_only_in_voice Fixture.deaf (Fixture.command "play")
           Race.start "guild").
  - apply command_in_guild.
  - reflexivity.
  - exact Hout.
Defined.

Lemma join_timeout_witness :
  joined (Fixture.command "play") "guild" Fixture.connecting =
    Some (0, Fixture.connecting) ∧
  entersState Fixture.deaf 0 Fixture.connecting = (Fixture.connecting, false) ∧
  handle Fixture.deaf (Fixture.command "play") Fixture.connecting =
    (Fixture.connecting,
     [EvGet "guild" (Some 0); EvSend (DeferReply "7");
      EvEntersState 0 20000 false; EvCall Warn;
      EvSend (FollowUp "7"
                (plain "Failed to join voice channel within 20 seconds, please try again later!"))]).
Proof.
  assert (Hj : joined (Fixture.command "play") "guild" Fixture.connecting =
               Some (0, Fixture.connecting)) by reflexivity.
  assert (Hw : entersState Fixture.deaf 0 Fixture.connecting =
               (Fixture.connecting, false)) by reflexivity.
  split; [ exact Hj | split; [ exact Hw | ] ].
  exact (proj1 (join_timeout Fixture.deaf (Fixture.command "play") Fixture.connecting
                  "guild" 0 Fixture.connecting Fixture.connecting
                  (command_in_guild "play") Hj Hw)).
Defined.

Lemma resolution_failure_witness :
  joined (Fixture.command "play") "guild" Fixture.busy = Some (0, Fixture.busy) ∧
  entersState Fixture.deaf 0 Fixture.busy = (Fixture.busy, true) ∧
  resolution_fails Fixture.deaf (Fixture.command "play") ∧
  handle Fixture.deaf (Fixture.command "play") Fixture.busy =
    (Fixture.busy,
     [EvGet "guild" (Some 0); EvSend (DeferReply "7");
      EvEntersState 0 20000 true;
      EvValidateURL "never heard" false; EvSearch "never heard";
      EvCall Warn;
      EvSend (FollowUp "7" (plain "Failed to play track, please try again later!"))]).
Proof.
  assert (Hj : joined (Fixture.command "play") "guild" Fixture.busy =
               Some (0, Fixture.busy)) by reflexivity.
  assert (Hw : entersState Fixture.deaf 0 Fixture.busy = (Fixture.busy, true))
    by reflexivity.
  assert (Hf : resolution_fails Fixture.deaf (Fixture.command "play")).
  { left. split; [ reflexivity | right; reflexivity ]. }
  split; [ exact Hj | split; [ exact Hw | split; [ exact Hf | ] ] ].
  exact (proj1 (resolution_failure Fixture.deaf (Fixture.command "play") Fixture.busy
                  "guild" 0 Fixture.busy Fixture.busy
                  (command_in_guild "play") Hj Hw Hf)).
Defined.

Lemma enqueue_only_after_ready_witness :
  command_in Fixture.request "play" "guild" ∧
  ∀ s t, EvCall (Enqueue s t) ∈ (handle Race.env Fixture.request Fixture.connecting).2 →
    ∃ pre res post w1 w2,
      (handle Race.env Fixture.request Fixture.connecting).2 =
        pre ++ EvEntersState s 20000 true :: res ++ EvCall (Enqueue s t) :: post ∧
      Forall (λ e, waits e = false ∧ resolves e = false ∧ enqueues e = false) pre ∧
      Forall (λ e, resolves e = true) res ∧
      Forall (λ e, connects e = false ∧ waits e = false ∧
                   resolves e = false ∧ enqueues e = false) post ∧
      joined Fixture.request "guild" Fixture.connecting = Some (s, w1) ∧
      entersState Race.env s w1 = (w2, true) ∧
      ∃ sub, heap w2 !! s = Some sub ∧ voiceConnection sub = Ready.
Proof.
  assert (Hc : command_in Fixture.request "play" "guild").
  { unfold command_in. cbn. repeat split. discriminate. }
  split; [ exact Hc | ].
  exact (proj2 (enqueue_only_after_ready Race.env Fixture.request Fixture.connecting
                  "guild" Hc)).
Defined.

Lemma skip_only_stops_witness :
  subscriptions Fixture.busy !! "guild" = Some 0 ∧
  calls (handle Fixture.deaf (Fixture.command "skip") Fixture.busy).2 = [PlayerStop 0] ∧
  heap (handle Fixture.deaf (Fixture.command "skip") Fixture.busy).1 =
    [mkSub Ready (Active Playing Fixture.song_b) [Fixture.song_c]].
Proof.
  assert (Hr : subscriptions Fixture.busy !! "guild" = Some 0) by reflexivity.
  assert (Hs : heap Fixture.busy !! 0 =
               Some (mkSub Ready (Active Playing Fixture.song_a)
                       [Fixture.song_b; Fixture.song_c])) by reflexivity.
  split; [ exact Hr | ].
  destruct (skip_only_stops Fixture.deaf (Fixture.command "skip") Fixture.busy "guild" 0 _
              (command_in_guild "skip") Hr Hs)
    as (Hcalls & _ & _ & _ & _ & Hactive).
  split; [ exact Hcalls | ].
  destruct Hactive as [Hheap _]; [ discriminate | ].
  exact Hheap.
Defined.

Lemma queue_listing_witness :
  subscriptions Fixture.busy !! "guild" = Some 0 ∧
  handle Fixture.deaf (Fixture.command "queue") Fixture.busy =
    (Fixture.busy,
     [EvGet "guild" (Some 0); EvRead 0;
      EvSend (Reply "7"
                (plain ("Playing **A**" +:+ nl +:+ nl +:+ "1) B" +:+ nl +:+ "2) C")))]).
Proof.
  assert (Hr : subscriptions Fixture.busy !! "guild" = Some 0) by reflexivity.
  assert (Hs : heap Fixture.busy !! 0 =
               Some (mkSub Ready (Active Playing Fixture.song_a)
                       [Fixture.song_b; Fixture.song_c])) by reflexivity.
  split; [ exact Hr | ].
  exact (proj1 (queue_listing Fixture.deaf (Fixture.command "queue") Fixture.busy
                  "guild" 0 _ (command_in_guild "queue") Hr Hs)).
Defined.

Lemma leave_tears_down_witness :
  subscriptions Fixture.busy !! "guild" = Some 0 ∧
  (handle Fixture.deaf (Fixture.command "leave") Fixture.busy).2 =
    [EvGet "guild" (Some 0); EvCall (ConnectionDestroy 0);
     EvCall (RegistryDelete "guild");
     EvSend (Reply "7" (private "Left channel!"))] ∧
  heap (handle Fixture.deaf (Fixture.command "leave") Fixture.busy).1 !! 0 =
    Some (mkSub Destroyed (Active Playing Fixture.song_a) []) ∧
  length (heap (handle Race.env Fixture.request
                  (handle Fixture.deaf (Fixture.command "leave") Fixture.busy).1).1) = 2 ∧
  heap (handle Race.env Fixture.request
          (handle Fixture.deaf (Fixture.command "leave") Fixture.busy).1).1 =
    [mkSub Destroyed (Active Playing Fixture.song_a) [];
     mkSub Ready (Active Playing (mkTrack "https://d" "https://d" "9")) []].
Proof.
  assert (Hr : subscriptions Fixture.busy !! "guild" = Some 0) by reflexivity.
  assert (Hs : heap Fixture.busy !! 0 =
               Some (mkSub Ready (Active Playing Fixture.song_a)
                       [Fixture.song_b; Fixture.song_c])) by reflexivity.
  assert (Hp : command_in Fixture.request "play" "guild").
  { unfold command_in. cbn. repeat split. discriminate. }
  split; [ exact Hr | ].
  destruct (leave_tears_down Fixture.deaf (Fixture.command "leave") Fixture.busy "guild" 0 _
              (command_in_guild "leave") Hr Hs)
    as (Htrace & _ & _ & _ & _ & Hobj & Hnext).
  destruct (Hnext Race.env Fixture.request (mkChannel "voice" "guild") Hp eq_refl)
    as (s' & w1 & _ & _ & _ & _ & _ & _ & Hgrow & _ & _).
  split; [ exact Htrace | ]. split; [ exact Hobj | ].
  split; [ exact Hgrow | reflexivity ].
Defined.

(** ** Runs on the inputs *)

Example first_play_creates_and_plays :
  handle Race.env Fixture.request Race.start =
    (mkWorld {[ "guild" := 0 ]}
       [mkSub Ready (Active Playing (mkTrack "https://d" "https://d" "9")) []],
     [EvGet "guild" None; EvSend (DeferReply "9");
      EvJoin (mkChannel "voice" "guild"); EvNew 0;
      EvCall (ListenError 0); EvCall (RegistrySet "guild" 0);
      EvEntersState 0 20000 true;
      EvValidateURL "https://d" true; EvTrackFrom "https://d";
      EvCall (Enqueue 0 (mkTrack "https://d" "https://d" "9"));
      EvCallback OnStart (mkTrack "https://d" "https://d" "9");
      EvSend (FollowUp "9" (plain "Enqueued **https://d**"))]).
Proof. reflexivity. Qed.

Example play_on_busy_waits_in_queue :
  (handle Race.env Fixture.request Fixture.busy).1 =
    mkWorld {[ "guild" := 0 ]}
      [mkSub Ready (Active Playing Fixture.song_a)
         [Fixture.song_b; Fixture.song_c; mkTrack "https://d" "https://d" "9"]].
Proof. reflexivity. Qed.

Example queue_of_seven_lists_five :
  sent (handle Fixture.deaf (Fixture.command "queue") Fixture.crowded).2 =
    [Reply "7"
       (plain ("Nothing is currently playing!" +:+ nl +:+ nl +:+
               "1) A" +:+ nl +:+ "2) B" +:+ nl +:+ "3) C" +:+ nl +:+
               "4) A" +:+ nl +:+ "5) B"))] ∧
  (handle Fixture.deaf (Fixture.command "queue") Fixture.crowded).1 = Fixture.crowded.
Proof. split; reflexivity. Qed.

Example skip_on_idle_keeps_queue :
  (handle Fixture.deaf (Fixture.command "skip") Fixture.crowded).1 = Fixture.crowded.
Proof. reflexivity. Qed.

Example pause_then_resume :
  heap (handle Fixture.deaf (Fixture.command "pause") Fixture.busy).1 =
    [mkSub Ready (Active Paused Fixture.song_a) [Fixture.song_b; Fixture.song_c]] ∧
  (handle Fixture.deaf (Fixture.command "resume")
     (handle Fixture.deaf (Fixture.command "pause") Fixture.busy).1).1 = Fixture.busy.
Proof. split; reflexivity. Qed.

Example empty_guild_id_is_ignored :
  handle Fixture.deaf
    (mkInteraction "6" true (Some EmptyString) "leave" "never heard" APIMember)
    Fixture.busy = (Fixture.busy, []).
Proof. reflexivity. Qed.

Example unknown_command :
  handle Fixture.deaf (Fixture.command "volume") Fixture.busy =
    (Fixture.busy,
     [EvGet "guild" (Some 0); EvSend (Reply "7" (plain "Unknown command"))]).
Proof. reflexivity. Qed.

Example one_after_the_other_share :
  created
    (run_schedule Race.env [0; 0; 0; 0; 1; 1; 1; 1]
       [interactionCreate Race.first_request; interactionCreate Race.second_request]
       Race.start).1.2 = [0].
Proof. reflexivity. Qed.

(** * The rest of the handler and the startup *)

(** ** Commands other than play, branch by branch *)

Lemma exec_call_fires c w :
  Forall (λ e, ∃ k t, e = EvCallback k t) (exec_call c w).2.
Proof.
  destruct c as [g s | g | s | s t | s | s | s | s | ]; cbn; try constructor;
    unfold on_sub; destruct (heap w !! s) as [sub | ]; try constructor.
  - unfold Subscription.enqueue, Subscription.play_front.
    destruct (audioPlayer sub), (voiceConnection sub); cbn; try constructor.
    destruct (queue sub); cbn; repeat constructor; eauto.
  - unfold Subscription.stop, Subscription.on_idle, Subscription.play_front.
    destruct (audioPlayer sub); cbn; try constructor.
    destruct (queue sub); cbn; repeat constructor; eauto.
  - unfold Subscription.pause.
    destruct (audioPlayer sub) as [ | [ | | ] t]; cbn; constructor.
  - unfold Subscription.unpause.
    destruct (audioPlayer sub) as [ | [ | | ] t]; cbn; constructor.
Qed.

Lemma fired_are_callbacks (evs : list Event) :
  Forall (λ e, ∃ k t, e = EvCallback k t) evs →
  calls evs = [] ∧ sent evs = [] ∧ created evs = [] ∧
  (∀ s, EvRead s ∉ evs).
Proof.
  induction 1 as [ | e evs (k & t & ->) _ (IHc & IHs & IHn & IHr)].
  - repeat split; try reflexivity. intros s. apply not_elem_of_nil.
  - repeat split; try assumption.
    intros s Hin. apply elem_of_cons in Hin as [Hin | Hin]; [ discriminate Hin | ].
    by apply IHr in Hin.
Qed.

Lemma created_app evs evs' : created (evs ++ evs') = created evs ++ created evs'.
Proof. apply omap_app. Qed.

Lemma sent_app evs evs' : sent (evs ++ evs') = sent evs ++ sent evs'.
Proof. apply omap_app. Qed.

(** The events of a sequence of calls are the calls and callbacks. *)
Lemma exec_calls_events cs : ∀ w,
  calls (exec_calls cs w).2 = cs ∧ sent (exec_calls cs w).2 = [] ∧
  created (exec_calls cs w).2 = [] ∧ (∀ s, EvRead s ∉ (exec_calls cs w).2).
Proof.
  induction cs as [ | c cs IH]; intros w; cbn [exec_calls].
  - repeat split; try reflexivity. intros s. apply not_elem_of_nil.
  - pose proof (exec_call_fires c w) as Hf.
    destruct (exec_call c w) as [w1 fired]. specialize (IH w1).
    destruct (exec_calls cs w1) as [w2 evs]. cbn [fst snd] in *.
    destruct (fired_are_callbacks fired Hf) as (Hc & Hs & Hn & Hr).
    destruct IH as (IHc & IHs & IHn & IHr).
    change (EvCall c :: fired ++ evs) with ([EvCall c] ++ fired ++ evs).
    rewrite !calls_app, !sent_app, !created_app, Hc, Hs, Hn, IHc, IHs, IHn.
    repeat split; try reflexivity.
    intros s Hin. apply elem_of_app in Hin as [Hin | Hin].
    + apply list_elem_of_singleton in Hin. discriminate Hin.
    + apply elem_of_app in Hin as [Hin | Hin]; [ by apply Hr in Hin | by apply IHr in Hin ].
Qed.

Ltac settle_names :=
  repeat (case_decide; subst; try discriminate; try congruence);
  try match goal with
    | H : ?n ∉ music_commands |- _ =>
        solve [ exfalso; apply H; unfold music_commands;
                repeat (apply elem_of_cons; first [ by left | right ]) ]
    end;
  try match goal with
    | H : ?n ∈ music_commands |- _ =>
        solve [ exfalso; unfold music_commands in H;
                repeat (apply elem_of_cons in H as [H | H]; [ congruence | ]);
                by apply elem_of_nil in H ]
    end.

(** A command other than play is the registry lookup, what its branch
    reads, its calls, and its one reply. *)
Lemma simple_command_run env i w g :
  passes_guard i g →
  commandName i ≠ "play" →
  handle env i w =
    (let found := subscriptions w !! g in
     let '(w', evs) := exec_calls (branch_calls (commandName i) g found) w in
     (w', EvGet g found :: branch_reads (commandName i) found ++ evs ++
          [EvSend (Reply (interaction_id i) (branch_reply (commandName i) found w))])).
Proof.
  intros (Hcmd & Hguild & Hne) Hname.
  unfold handle, run, interactionCreate. rewrite Hcmd, Hguild. cbn [negb].
  destruct (decide (g = EmptyString)) as [Heq | _]; [ contradiction | ].
  cbn [go]. unfold branch_calls, branch_reads, branch_reply.
  generalize dependent (commandName i). intros name Hname.
  destruct (subscriptions w !! g) as [s | ];
    settle_names; cbn [go spend exec_calls emit app];
    repeat match goal with
      | |- context [exec_call ?c ?w0] => destruct (exec_call c w0) as [? ?]
      end;
    cbn [go spend exec_calls emit app];
    rewrite ?app_nil_r, <- ?app_assoc; cbn [app]; reflexivity.
Qed.

Lemma branch_reads_events name found :
  calls (branch_reads name found) = [] ∧ sent (branch_reads name found) = [] ∧
  created (branch_reads name found) = [].
Proof.
  unfold branch_reads. destruct found as [s | ]; [ | done ].
  by destruct (decide (name = "queue")).
Qed.

(** The events of a command other than play, by kind. *)
Lemma simple_command_events env i w g :
  passes_guard i g →
  commandName i ≠ "play" →
  calls (handle env i w).2 = branch_calls (commandName i) g (subscriptions w !! g) ∧
  sent (handle env i w).2 =
    [Reply (interaction_id i)
       (branch_reply (commandName i) (subscriptions w !! g) w)] ∧
  created (handle env i w).2 = [] ∧
  (handle env i w).1 =
    (exec_calls (branch_calls (commandName i) g (subscriptions w !! g)) w).1.
Proof.
  intros Hg Hname. rewrite (simple_command_run env i w g Hg Hname). cbv zeta.
  pose proof (exec_calls_events
                (branch_calls (commandName i) g (subscriptions w !! g)) w)
    as (Hc & Hs & Hn & _).
  destruct (exec_calls _ w) as [w' evs]. cbn [fst snd] in *.
  destruct (branch_reads_events (commandName i) (subscriptions w !! g))
    as (Hrc & Hrs & Hrn).
  change (EvGet g ?r :: ?l) with ([EvGet g r] ++ l).
  rewrite !calls_app, !sent_app, !created_app, Hc, Hs, Hn, Hrc, Hrs, Hrn.
  cbn. by rewrite app_nil_r.
Qed.

(** ** One answer per command *)

(** X1: a command other than play that passes the guard is answered by
    exactly one [reply] on its own interaction: there is no deferral, no
    follow-up and no second reply, with or without a subscription and
    whatever the command name. *)
Theorem one_reply_per_command env i w g :
  passes_guard i g →
  commandName i ≠ "play" →
  ∃ m, sent (handle env i w).2 = [Reply (interaction_id i) m].
Proof.
  intros Hg Hname.
  destruct (simple_command_events env i w g Hg Hname) as (_ & Hs & _).
  eauto.
Qed.

Lemma sent_joining i g w : sent (joining i g w) = [DeferReply (interaction_id i)].
Proof.
  unfold joining, sent.
  destruct (subscriptions w !! g), (member i) as [[channel | ] | ]; reflexivity.
Qed.

Lemma sent_resolving env songinfo : sent (resolving env songinfo) = [].
Proof.
  unfold resolving, sent. cbn. rewrite omap_app.
  destruct (validateURL env songinfo), (chosen_url env songinfo); reflexivity.
Qed.

(** What a play command sends, on every path. *)
Lemma play_defers_then_follows_up_shape env i w g :
  command_in i "play" g →
  ∃ text,
    sent (handle env i w).2 =
      [DeferReply (interaction_id i); FollowUp (interaction_id i) (plain text)].
Proof.
  intros H. rewrite (play_run env i w g H).
  destruct (joined i g w) as [[s w1] | ].
  - destruct (entersState env s w1) as [w2 [ | ]].
    + destruct (resolved env i) as [track | ].
      * pose proof (enqueue_fires s track w2) as Hf.
        destruct (on_sub s (Subscription.enqueue track) w2) as [w3 fired].
        cbn [fst snd] in *.
        destruct (fired_are_callbacks fired Hf) as (_ & Hs & _).
        change (EvEntersState s 20000 true :: ?l) with ([EvEntersState s 20000 true] ++ l).
        change (EvCall (Enqueue s track) :: ?l) with ([EvCall (Enqueue s track)] ++ l).
        rewrite !sent_app, sent_joining, sent_resolving, Hs. cbn. eauto.
      * cbn [snd].
        change (EvEntersState s 20000 true :: ?l) with ([EvEntersState s 20000 true] ++ l).
        rewrite !sent_app, sent_joining, sent_resolving. cbn. eauto.
    + cbn [snd]. rewrite sent_app, sent_joining. cbn. eauto.
  - cbn [snd]. rewrite sent_app, sent_joining. cbn. eauto.
Qed.

(** ** Commands that are not about music *)

(** X3: a command whose name is none of play, skip, queue, pause, resume
    and leave does nothing but look the guild up and reply: "mc" for
    minecraft, "status" for serverstatus, "Unknown command" for anything
    else.  The world is as it was, even when the guild has a
    subscription. *)
Theorem other_commands_change_nothing env i w g :
  passes_guard i g →
  commandName i ∉ music_commands →
  handle env i w =
    (w, [EvGet g (subscriptions w !! g);
         EvSend (Reply (interaction_id i)
                   (plain (if decide (commandName i = "minecraft") then "mc"
                           else if decide (commandName i = "serverstatus") then "status"
                           else "Unknown command")))]).
Proof.
  intros Hg Hout.
  assert (Hname : commandName i ≠ "play").
  { intros Heq. apply Hout. rewrite Heq. unfold music_commands. by left. }
  rewrite (simple_command_run env i w g Hg Hname).
  unfold branch_calls, branch_reads, branch_reply.
  generalize dependent (commandName i). intros name Hout Hname.
  destruct (subscriptions w !! g) as [s | ]; settle_names; reflexivity.
Qed.

(** ** Pause and resume *)

(** X4: with a subscription registered for the guild, pause and resume
    make one call on its player, [pause()] or [unpause()], read nothing,
    leave the registry as it was and reply privately "Paused!" or
    "Unpaused!", whatever state the player is in. *)
Theorem pause_and_resume_call_the_player env i w g s :
  passes_guard i g →
  commandName i = "pause" ∨ commandName i = "resume" →
  subscriptions w !! g = Some s →
  calls (handle env i w).2 =
    [if decide (commandName i = "pause") then PlayerPause s else PlayerUnpause s] ∧
  sent (handle env i w).2 =
    [Reply (interaction_id i)
       (private (if decide (commandName i = "pause") then "Paused!" else "Unpaused!"))] ∧
  (∀ s', EvRead s' ∉ (handle env i w).2) ∧
  subscriptions (handle env i w).1 = subscriptions w.
Proof.
  intros Hg Hname Hreg.
  assert (Hnp : commandName i ≠ "play") by (destruct Hname as [-> | ->]; discriminate).
  rewrite (simple_command_run env i w g Hg Hnp). rewrite Hreg. cbv zeta.
  unfold branch_calls, branch_reads, branch_reply.
  destruct Hname as [-> | ->]; settle_names; cbn [exec_calls];
    match goal with
    | |- context [exec_call ?c w] =>
        pose proof (exec_call_fires c w) as Hf;
        assert (Hsub : subscriptions (exec_call c w).1 = subscriptions w)
          by apply on_sub_subscriptions;
        destruct (exec_call c w) as [w1 fired]
    end;
    cbn [fst snd app] in *;
    destruct (fired_are_callbacks fired Hf) as (Hc & Hs & _ & Hr);
    rewrite app_nil_r;
    change (EvGet g ?r :: EvCall ?c :: ?l) with ([EvGet g r; EvCall c] ++ l);
    rewrite !calls_app, !sent_app, Hc, Hs; cbn;
    (repeat split; try done);
    intros s' Hin;
    (apply elem_of_cons in Hin as [Hin | Hin]; [ discriminate Hin | ]);
    (apply elem_of_cons in Hin as [Hin | Hin]; [ discriminate Hin | ]);
    (apply elem_of_app in Hin as [Hin | Hin]; [ by apply Hr in Hin | ]);
    apply list_elem_of_singleton in Hin; discriminate Hin.
Qed.

(** ** What a command does to the registry and to other guilds *)

Lemma exec_call_registry c w :
  subscriptions (exec_call c w).1 =
    match c with
    | RegistrySet g s => <[g := s]> (subscriptions w)
    | RegistryDelete g => delete g (subscriptions w)
    | _ => subscriptions w
    end.
Proof. destruct c; cbn [exec_call]; try reflexivity; apply on_sub_subscriptions. Qed.






Lemma not_in_voice_joined i g w :
  subscriptions w !! g = None → ¬ in_voice i → joined i g w = None.
Proof.
  intros Hnone Hout. unfold joined. rewrite Hnone.
  destruct (member i) as [[channel | ] | ] eqn:Hm; try reflexivity.
  exfalso. apply Hout. by exists channel.
Qed.

Lemma in_voice_joined i g w :
  subscriptions w !! g = None → in_voice i →
  joined i g w =
    Some (length (heap w),
          mkWorld (<[g := length (heap w)]> (subscriptions w))
                  (heap w ++ [Subscription.create])).
Proof. intros Hnone [channel Hm]. unfold joined. by rewrite Hnone, Hm. Qed.

(** The world of a play command that holds no subscription. *)
Lemma play_without_subscription env i w g :
  command_in i "play" g → joined i g w = None → (handle env i w).1 = w.
Proof. intros H Hj. by rewrite (play_run env i w g H), Hj. Qed.


(** The registry after a command, case by case. *)
Lemma registry_cases env i w g :
  passes_guard i g →
  (commandName i = "play" → subscriptions w !! g = None → in_voice i →
     subscriptions (handle env i w).1 = <[g := length (heap w)]> (subscriptions w)) ∧
  (commandName i = "leave" → is_Some (subscriptions w !! g) →
     subscriptions (handle env i w).1 = delete g (subscriptions w)) ∧
  (¬ (commandName i = "play" ∧ subscriptions w !! g = None ∧ in_voice i) →
   ¬ (commandName i = "leave" ∧ is_Some (subscriptions w !! g)) →
     subscriptions (handle env i w).1 = subscriptions w).
Proof.
  intros Hg. pose proof Hg as (Hcmd & Hguild & Hne).
  destruct (decide (commandName i = "play")) as [Hplay | Hnot].
  - assert (H : command_in i "play" g) by done.
    split; [ | split ].
    + intros _ Hnone Hv.
      by rewrite (play_registered env i w g _ _ H (in_voice_joined i g w Hnone Hv)).
    + intros Hleave. congruence.
    + intros Hno _. destruct (subscriptions w !! g) as [s | ] eqn:Hreg.
      * assert (Hj : joined i g w = Some (s, w)) by (unfold joined; by rewrite Hreg).
        by rewrite (play_registered env i w g _ _ H Hj).
      * assert (Hout : ¬ in_voice i) by tauto.
        by rewrite (play_without_subscription env i w g H
                      (not_in_voice_joined i g w Hreg Hout)).
  - destruct (simple_command_events env i w g Hg Hnot) as (_ & _ & _ & ->).
    unfold branch_calls.
    split; [ | split ].
    + intros Hplay. contradiction.
    + intros Hleave [s Hreg]. rewrite Hreg, Hleave. settle_names.
      cbn [exec_calls].
      pose proof (exec_call_registry (ConnectionDestroy s) w) as Hd.
      destruct (exec_call (ConnectionDestroy s) w) as [w1 fired].
      cbn in Hd |- *. by rewrite Hd.
    + intros _ Hno. destruct (subscriptions w !! g) as [s | ] eqn:Hreg; [ | reflexivity ].
      assert (Hnl : commandName i ≠ "leave") by (intros Hl; apply Hno; eauto).
      generalize dependent (commandName i). intros name Hnot _ Hnl.
      settle_names; cbn [exec_calls]; try reflexivity;
        match goal with
        | |- context [exec_call ?c w] =>
            pose proof (exec_call_registry c w) as Hd;
            destruct (exec_call c w) as [w1 fired]
        end; cbn in Hd |- *; exact Hd.
Qed.

(** X5: the registry changes in two cases only.  A play command in a
    guild without an entry, from a member in a voice channel, adds the
    entry of the guild, pointing to the object it has just constructed; a
    leave command in a guild with an entry removes that entry.  Every
    other command, and play and leave outside these cases, leave the
    registry exactly as it was. *)
Theorem registry_changes_only_on_join_and_leave env i w g :
  passes_guard i g →
  (commandName i = "play" → subscriptions w !! g = None → in_voice i →
     subscriptions (handle env i w).1 = <[g := length (heap w)]> (subscriptions w)) ∧
  (commandName i = "leave" → is_Some (subscriptions w !! g) →
     subscriptions (handle env i w).1 = delete g (subscriptions w)) ∧
  (¬ (commandName i = "play" ∧ subscriptions w !! g = None ∧ in_voice i) →
   ¬ (commandName i = "leave" ∧ is_Some (subscriptions w !! g)) →
     subscriptions (handle env i w).1 = subscriptions w).
Proof. apply registry_cases. Qed.




(** ** What only play and only leave do *)

Lemma calls_joining i g w :
  calls (joining i g w) =
    match subscriptions w !! g, member i with
    | None, GuildMember (Some _) =>
        [ListenError (length (heap w)); RegistrySet g (length (heap w))]
    | _, _ => []
    end.
Proof.
  unfold joining, calls.
  destruct (subscriptions w !! g), (member i) as [[channel | ] | ]; reflexivity.
Qed.

Lemma created_joining i g w :
  created (joining i g w) =
    match subscriptions w !! g, member i with
    | None, GuildMember (Some _) => [length (heap w)]
    | _, _ => []
    end.
Proof.
  unfold joining, created.
  destruct (subscriptions w !! g), (member i) as [[channel | ] | ]; reflexivity.
Qed.

Lemma created_resolving env songinfo : created (resolving env songinfo) = [].
Proof.
  unfold resolving, created. cbn. rewrite omap_app.
  destruct (validateURL env songinfo), (chosen_url env songinfo); reflexivity.
Qed.

(** The calls and constructions of a play command: those of the joining
    phase, then a warning or the [enqueue]. *)
Lemma play_events env i w g :
  command_in i "play" g →
  created (handle env i w).2 = created (joining i g w) ∧
  (calls (handle env i w).2 = calls (joining i g w) ∨
   calls (handle env i w).2 = calls (joining i g w) ++ [Warn] ∨
   ∃ s track, calls (handle env i w).2 = calls (joining i g w) ++ [Enqueue s track]).
Proof.
  intros H. rewrite (play_run env i w g H).
  destruct (joined i g w) as [[s w1] | ].
  - destruct (entersState env s w1) as [w2 [ | ]].
    + destruct (resolved env i) as [track | ].
      * pose proof (enqueue_fires s track w2) as Hf.
        destruct (on_sub s (Subscription.enqueue track) w2) as [w3 fired].
        cbn [fst snd] in *.
        destruct (fired_are_callbacks fired Hf) as (Hc & _ & Hn & _).
        change (EvEntersState s 20000 true :: ?l) with ([EvEntersState s 20000 true] ++ l).
        change (EvCall (Enqueue s track) :: ?l) with ([EvCall (Enqueue s track)] ++ l).
        rewrite !calls_app, !created_app, calls_resolving, created_resolving, Hc, Hn.
        cbn. rewrite app_nil_r. split; [ reflexivity | ]. right. right. eauto.
      * cbn [snd].
        change (EvEntersState s 20000 true :: ?l) with ([EvEntersState s 20000 true] ++ l).
        rewrite !calls_app, !created_app, calls_resolving, created_resolving.
        cbn. rewrite app_nil_r. split; [ reflexivity | ]. right. by left.
    + cbn [snd]. rewrite calls_app, created_app. cbn. rewrite app_nil_r.
      split; [ reflexivity | ]. right. by left.
  - cbn [snd]. rewrite calls_app, created_app. cbn. rewrite !app_nil_r.
    split; [ reflexivity | ]. by left.
Qed.

Lemma play_never_tears_down env i w g c :
  command_in i "play" g →
  c ∈ calls (handle env i w).2 →
  (∃ s, c = ListenError s) ∨ (∃ s, c = RegistrySet g s) ∨ c = Warn ∨
  (∃ s track, c = Enqueue s track).
Proof.
  intros H Hin.
  assert (Hjoin : c ∈ calls (joining i g w) →
            (∃ s, c = ListenError s) ∨ (∃ s, c = RegistrySet g s)).
  { rewrite calls_joining.
    destruct (subscriptions w !! g), (member i) as [[channel | ] | ];
      try (intros Hc; by apply elem_of_nil in Hc).
    intros Hc. apply elem_of_cons in Hc as [-> | Hc]; [ eauto | ].
    apply list_elem_of_singleton in Hc as ->. eauto. }
  destruct (play_events env i w g H) as (_ & [Hc | [Hc | (s & track & Hc)]]);
    rewrite Hc in Hin.
  - destruct (Hjoin Hin) as [? | ?]; auto.
  - apply elem_of_app in Hin as [Hin | Hin]; [ destruct (Hjoin Hin); auto | ].
    apply list_elem_of_singleton in Hin. auto.
  - apply elem_of_app in Hin as [Hin | Hin]; [ destruct (Hjoin Hin); auto | ].
    apply list_elem_of_singleton in Hin. eauto 6.
Qed.

(** X7: a connection is destroyed by the leave command of its own guild
    and by nothing else, and whenever it is destroyed the entry of the
    guild is removed right after: [destroy] occurs in the calls of a
    command exactly when the command is leave and the registry holds
    that subscription for the guild, and then the calls are [destroy]
    followed by [delete]; and no other command deletes an entry. *)
Theorem destroy_only_with_delete_on_leave env i w g :
  passes_guard i g →
  (∀ s, ConnectionDestroy s ∈ calls (handle env i w).2 ↔
        commandName i = "leave" ∧ subscriptions w !! g = Some s) ∧
  (∀ g', RegistryDelete g' ∈ calls (handle env i w).2 ↔
         g' = g ∧ commandName i = "leave" ∧ is_Some (subscriptions w !! g)) ∧
  (∀ s, ConnectionDestroy s ∈ calls (handle env i w).2 →
        calls (handle env i w).2 = [ConnectionDestroy s; RegistryDelete g]).
Proof.
  intros Hg. pose proof Hg as (Hcmd & Hguild & Hne).
  destruct (decide (commandName i = "play")) as [Hplay | Hnp].
  - assert (H : command_in i "play" g) by done.
    assert (Hno : ∀ c, c ∈ calls (handle env i w).2 →
              (∀ s, c ≠ ConnectionDestroy s) ∧ (∀ g', c ≠ RegistryDelete g')).
    { intros c Hin.
      destruct (play_never_tears_down env i w g c H Hin)
        as [[s ->] | [[s ->] | [-> | (s & track & ->)]]]; by split. }
    split; [ | split ].
    + intros s. split; [ | intros (Hl & _); congruence ].
      intros Hin. by destruct (proj1 (Hno _ Hin) s).
    + intros g'. split; [ | intros (_ & Hl & _); congruence ].
      intros Hin. by destruct (proj2 (Hno _ Hin) g').
    + intros s Hin. by destruct (proj1 (Hno _ Hin) s).
  - destruct (simple_command_events env i w g Hg Hnp) as (-> & _).
    unfold branch_calls.
    generalize dependent (commandName i). intros name Hnp.
    destruct (subscriptions w !! g) as [s0 | ].
    + settle_names;
        (split; [ | split ];
         [ intros s; split;
             [ intros Hin;
               repeat (apply elem_of_cons in Hin as [Hin | Hin];
                       [ try discriminate Hin; try (injection Hin as ->; done) | ]);
               by apply elem_of_nil in Hin
             | intros (Hl & [= ->]); try congruence; by left ]
         | intros g'; split;
             [ intros Hin;
               repeat (apply elem_of_cons in Hin as [Hin | Hin];
                       [ try discriminate Hin; try (injection Hin as ->; eauto) | ]);
               by apply elem_of_nil in Hin
             | intros (-> & Hl & _); try congruence; right; by left ]
         | intros s Hin;
           repeat (apply elem_of_cons in Hin as [Hin | Hin];
                   [ try discriminate Hin; try (injection Hin as ->; done) | ]);
           by apply elem_of_nil in Hin ]).
    + split; [ | split ].
      * intros s. split; [ intros Hin; by apply elem_of_nil in Hin | ].
        intros (_ & [=]).
      * intros g'. split; [ intros Hin; by apply elem_of_nil in Hin | ].
        intros (_ & _ & [s Hs]). discriminate Hs.
      * intros s Hin. by apply elem_of_nil in Hin.
Qed.

(** X9: a command constructs at most one subscription, and constructs
    one exactly when it is play, the registry holds nothing for the
    guild, and the member is in a voice channel; the new object is then
    the next one of the heap. *)
Theorem only_play_constructs env i w g :
  passes_guard i g →
  (commandName i = "play" → subscriptions w !! g = None → in_voice i →
     created (handle env i w).2 = [length (heap w)]) ∧
  (created (handle env i w).2 ≠ [] →
     commandName i = "play" ∧ subscriptions w !! g = None ∧ in_voice i) ∧
  length (created (handle env i w).2) ≤ 1.
Proof.
  intros Hg. pose proof Hg as (Hcmd & Hguild & Hne).
  destruct (decide (commandName i = "play")) as [Hplay | Hnp].
  - assert (H : command_in i "play" g) by done.
    destruct (play_events env i w g H) as (-> & _). rewrite created_joining.
    split; [ | split ].
    + intros _ Hnone [channel Hm]. by rewrite Hnone, Hm.
    + destruct (subscriptions w !! g); [ done | ].
      destruct (member i) as [[channel | ] | ] eqn:Hm; try done.
      intros _. repeat split; try done. by exists channel.
    + destruct (subscriptions w !! g), (member i) as [[channel | ] | ]; cbn; lia.
  - destruct (simple_command_events env i w g Hg Hnp) as (_ & _ & -> & _).
    split; [ | split ]; [ done | done | cbn; lia ].
Qed.

(** ** The registered commands and the dispatch *)

Lemma last_music_command name :
  name ∈ music_commands →
  name ≠ "play" → name ≠ "skip" → name ≠ "queue" → name ≠ "pause" →
  name ≠ "resume" → name = "leave".
Proof.
  unfold music_commands. intros Hin ? ? ? ? ?.
  repeat (apply elem_of_cons in Hin as [Hin | Hin]; [ congruence | ]).
  by apply elem_of_nil in Hin.
Qed.

Lemma music_commands_registered name :
  name ∈ music_commands → name ∈ command_names.
Proof.
  unfold music_commands, command_names, commands. cbn. intros Hin.
  repeat (apply elem_of_cons in Hin as [-> | Hin];
          [ repeat (apply elem_of_cons; first [ by left | right ]) | ]).
  by apply elem_of_nil in Hin.
Qed.

Lemma current_line_not_unknown sub tail :
  current_line sub +:+ tail ≠ "Unknown command".
Proof. unfold current_line. destruct (audioPlayer sub); cbn; discriminate. Qed.

(** X8: the table of registered commands and the dispatch of the handler
    agree.  The registered names are pairwise distinct, and a command
    that passes the guard is answered "Unknown command" exactly when its
    name is not one of them: every registered command has its branch. *)
Theorem registered_commands_have_a_branch env i w g :
  passes_guard i g →
  NoDup command_names ∧
  (Reply (interaction_id i) (plain "Unknown command") ∈ sent (handle env i w).2 ↔
   commandName i ∉ command_names).
Proof.
  intros Hg. pose proof Hg as (Hcmd & Hguild & Hne).
  split.
  { unfold command_names, commands. cbn.
    repeat (apply NoDup_cons; split;
            [ intros Hin;
              repeat (apply elem_of_cons in Hin as [Hin | Hin]; [ discriminate Hin | ]);
              by apply elem_of_nil in Hin | ]).
    apply NoDup_nil_2. }
  assert (Hnames : ∀ name, name ∈ command_names ↔
            name = "play" ∨ name = "skip" ∨ name = "queue" ∨ name = "pause" ∨
            name = "resume" ∨ name = "leave" ∨ name = "minecraft" ∨
            name = "serverstatus").
  { intros name. unfold command_names, commands. cbn.
    rewrite !elem_of_cons, elem_of_nil. tauto. }
  destruct (decide (commandName i = "play")) as [Hplay | Hnp].
  - assert (H : command_in i "play" g) by done.
    destruct (play_defers_then_follows_up_shape env i w g H) as [text ->].
    split.
    + intros Hin.
      repeat (apply elem_of_cons in Hin as [Hin | Hin]; [ discriminate Hin | ]).
      by apply elem_of_nil in Hin.
    + intros Hout. exfalso. apply Hout, Hnames. by left.
  - destruct (simple_command_events env i w g Hg Hnp) as (_ & -> & _).
    rewrite list_elem_of_singleton, Hnames. unfold branch_reply.
    generalize dependent (commandName i). intros name Hnp.
    destruct (subscriptions w !! g) as [s | ]; settle_names;
      try match goal with
        | H : ?n ∈ music_commands |- _ =>
            is_var n;
            assert (n = "leave") by (apply last_music_command; assumption);
            subst n
        end;
      (split;
       [ intros Heq; try discriminate Heq;
         try (injection Heq as Heq; symmetry in Heq;
              by apply current_line_not_unknown in Heq);
         intros Hin; decompose [or] Hin; subst; try congruence;
         match goal with
         | H : _ ∉ music_commands |- _ =>
             apply H; unfold music_commands;
             repeat (apply elem_of_cons; first [ by left | right ])
         end
       | intros Hout; try reflexivity; exfalso; apply Hout;
         first [ solve [ repeat first [ by left | right ]; reflexivity ]
               | apply Hnames, music_commands_registered; assumption ] ]).
Qed.

(** ** Play: what is resolved and what is enqueued *)

Lemma resolved_track env i url name :
  chosen_url env (song i) = Some url →
  track_info env url = Some name →
  resolved env i = Some (mkTrack url name (interaction_id i)).
Proof. intros Hu Ht. unfold resolved, track_from. by rewrite Hu, Ht. Qed.

(** X10: a play command whose wait and resolution succeed calls
    [enqueue] exactly once, on the subscription it holds, with the track
    made from the chosen URL and carrying its own interaction for the
    callbacks; it follows up with "Enqueued **title**", and the guild
    stays registered to that subscription. *)
Theorem play_enqueues_the_resolved_track env i w g s w1 w2 url name :
  command_in i "play" g →
  joined i g w = Some (s, w1) →
  entersState env s w1 = (w2, true) →
  chosen_url env (song i) = Some url →
  track_info env url = Some name →
  calls (handle env i w).2 =
    calls (joining i g w) ++ [Enqueue s (mkTrack url name (interaction_id i))] ∧
  sent (handle env i w).2 =
    [DeferReply (interaction_id i);
     FollowUp (interaction_id i) (plain ("Enqueued **" +:+ name +:+ "**"))] ∧
  (handle env i w).1 =
    (exec_call (Enqueue s (mkTrack url name (interaction_id i))) w2).1 ∧
  subscriptions (handle env i w).1 !! g = Some s.
Proof.
  intros H Hj Hwait Hu Ht.
  pose proof (play_registered env i w g s w1 H Hj) as Hreg.
  pose proof (joined_registered i g w s w1 Hj) as Hs.
  rewrite (play_run env i w g H), Hj, Hwait, (resolved_track env i url name Hu Ht) in *.
  cbn [exec_call].
  pose proof (enqueue_fires s (mkTrack url name (interaction_id i)) w2) as Hf.
  destruct (on_sub s (Subscription.enqueue _) w2) as [w3 fired].
  cbn [fst snd title] in *.
  destruct (fired_are_callbacks fired Hf) as (Hc & Hsent & _).
  change (EvEntersState s 20000 true :: ?l) with ([EvEntersState s 20000 true] ++ l).
  change (EvCall (Enqueue s ?t) :: ?l) with ([EvCall (Enqueue s t)] ++ l).
  rewrite !calls_app, !sent_app, calls_resolving, sent_resolving, sent_joining, Hc, Hsent.
  cbn. rewrite ?app_nil_r. repeat split. by rewrite Hreg.
Qed.

(** X11: the text of a play request is searched only when it is not a
    valid URL, and [Track.from] is only ever given the chosen URL: the
    text itself when it is a valid URL, the URL of the first video found
    otherwise. *)
Theorem search_only_for_what_is_not_a_url env i w g :
  command_in i "play" g →
  (∀ text, EvSearch text ∈ (handle env i w).2 →
     text = song i ∧ validateURL env (song i) = false) ∧
  (∀ url, EvTrackFrom url ∈ (handle env i w).2 →
     if validateURL env (song i) then url = song i
     else ∃ first rest, yts env (song i) = Some (first :: rest) ∧ url = video_url first).
Proof.
  intros H.
  assert (Hin_res : ∀ e, resolves e = true → e ∈ (handle env i w).2 →
            e ∈ resolving env (song i)).
  { intros e He Hin. rewrite (play_run env i w g H) in Hin.
    pose proof (joining_phase i g w) as Hpre. rewrite Forall_forall in Hpre.
    assert (Hj : e ∉ joining i g w).
    { intros Hj. destruct (Hpre _ Hj) as (_ & Hr & _). congruence. }
    destruct (joined i g w) as [[s w1] | ].
    - destruct (entersState env s w1) as [w2 [ | ]].
      + destruct (resolved env i) as [track | ].
        * pose proof (enqueue_fires s track w2) as Hf.
          destruct (on_sub s (Subscription.enqueue track) w2) as [w3 fired].
          cbn [fst snd] in *. rewrite Forall_forall in Hf.
          apply elem_of_app in Hin as [Hin | Hin]; [ done | ].
          apply elem_of_cons in Hin as [-> | Hin]; [ discriminate He | ].
          apply elem_of_app in Hin as [Hin | Hin]; [ done | ].
          apply elem_of_cons in Hin as [-> | Hin]; [ discriminate He | ].
          apply elem_of_app in Hin as [Hin | Hin].
          -- destruct (Hf _ Hin) as (k & t & ->). discriminate He.
          -- apply list_elem_of_singleton in Hin as ->. discriminate He.
        * cbn [snd] in Hin.
          apply elem_of_app in Hin as [Hin | Hin]; [ done | ].
          apply elem_of_cons in Hin as [-> | Hin]; [ discriminate He | ].
          apply elem_of_app in Hin as [Hin | Hin]; [ done | ].
          unfold failed_to_play in Hin.
          repeat (apply elem_of_cons in Hin as [-> | Hin]; [ discriminate He | ]).
          by apply elem_of_nil in Hin.
      + cbn [snd] in Hin. unfold failed_to_join in Hin.
        apply elem_of_app in Hin as [Hin | Hin]; [ done | ].
        repeat (apply elem_of_cons in Hin as [-> | Hin]; [ discriminate He | ]).
        by apply elem_of_nil in Hin.
    - cbn [snd] in Hin.
      apply elem_of_app in Hin as [Hin | Hin]; [ done | ].
      apply list_elem_of_singleton in Hin as ->. discriminate He. }
  split.
  - intros text Hin. apply Hin_res in Hin; [ | reflexivity ].
    unfold resolving, chosen_url in Hin.
    destruct (validateURL env (song i)).
    + apply elem_of_cons in Hin as [Hin | Hin]; [ discriminate Hin | ].
      cbn in Hin. apply list_elem_of_singleton in Hin. discriminate Hin.
    + apply elem_of_cons in Hin as [Hin | Hin]; [ discriminate Hin | ].
      cbn in Hin. apply elem_of_cons in Hin as [Hin | Hin]; [ by injection Hin | ].
      destruct (yts env (song i)) as [[ | first rest] | ];
        try (by apply elem_of_nil in Hin).
      apply list_elem_of_singleton in Hin. discriminate Hin.
  - intros url Hin. apply Hin_res in Hin; [ | reflexivity ].
    unfold resolving, chosen_url in Hin.
    destruct (validateURL env (song i)).
    + apply elem_of_cons in Hin as [Hin | Hin]; [ discriminate Hin | ].
      cbn in Hin. apply list_elem_of_singleton in Hin. by injection Hin.
    + apply elem_of_cons in Hin as [Hin | Hin]; [ discriminate Hin | ].
      cbn in Hin. apply elem_of_cons in Hin as [Hin | Hin]; [ discriminate Hin | ].
      destruct (yts env (song i)) as [[ | first rest] | ];
        try (by apply elem_of_nil in Hin).
      apply list_elem_of_singleton in Hin. injection Hin as ->. eauto.
Qed.

(** ** Play commands one after the other *)

(** X12: when a play command creates the subscription of a guild and a
    second play command of the guild starts after the first has
    completed, the second finds that subscription in the registry,
    constructs nothing, and leaves the guild registered to it: over both
    runs exactly one subscription is constructed. *)
Theorem plays_one_after_the_other_share env env' i i' w g :
  command_in i "play" g →
  command_in i' "play" g →
  subscriptions w !! g = None →
  in_voice i →
  created ((handle env i w).2 ++ (handle env' i' (handle env i w).1).2) =
    [length (heap w)] ∧
  EvGet g (Some (length (heap w))) ∈ (handle env' i' (handle env i w).1).2 ∧
  subscriptions (handle env' i' (handle env i w).1).1 !! g = Some (length (heap w)).
Proof.
  intros H H' Hnone Hv.
  pose proof (in_voice_joined i g w Hnone Hv) as Hj.
  pose proof (play_registered env i w g _ _ H Hj) as Hreg. cbn in Hreg.
  assert (Hfound : subscriptions (handle env i w).1 !! g = Some (length (heap w))).
  { rewrite Hreg. apply lookup_insert_eq. }
  set (w1 := (handle env i w).1) in *.
  assert (Hj' : joined i' g w1 = Some (length (heap w), w1)).
  { unfold joined. by rewrite Hfound. }
  destruct (play_events env i w g H) as (Hc & _).
  destruct (play_events env' i' w1 g H') as (Hc' & _).
  rewrite created_app, Hc, Hc', !created_joining, Hfound, Hnone.
  destruct Hv as [channel Hm]. rewrite Hm. cbn.
  split; [ reflexivity | split ].
  - assert (Hpre : ∃ rest, (handle env' i' w1).2 = joining i' g w1 ++ rest).
    { rewrite (play_run env' i' w1 g H'), Hj'.
      destruct (entersState env' _ w1) as [w2 [ | ]]; [ | by eexists ].
      destruct (resolved env' i') as [track | ]; [ | by eexists ].
      destruct (on_sub _ (Subscription.enqueue track) w2) as [w3 fired]. by eexists. }
    destruct Hpre as [rest ->]. apply elem_of_app. left.
    unfold joining. rewrite Hfound. by left.
  - rewrite (play_registered env' i' w1 g _ _ H' Hj'). exact Hfound.
Qed.

(** ** The listing of the queue command *)

(** X13: the listing part of the reply of the queue command is empty
    exactly when the queue is empty; the reply then ends with the empty
    line after the line about the player. *)
Theorem listing_empty_iff_queue_empty sub :
  join nl (queue_lines sub) = EmptyString ↔ queue sub = [].
Proof.
  unfold queue_lines, slice. rewrite drop_0. cbn [Nat.sub].
  destruct (queue sub) as [ | first [ | second rest]]; cbn.
  - done.
  - split; discriminate.
  - split; discriminate.
Qed.

(** ** Registering the commands at startup *)

(** X14: at startup the guild route is put to exactly when the
    configuration names a guild (a guild id that is neither missing nor
    empty), and the global route is put to exactly when there is no such
    guild or the put to the guild route resolved: a rejected guild
    registration skips the global one. *)
Theorem global_registration_needs_guild_success auth rest :
  (∀ guild,
     (∃ body ok, Startup.Put (Startup.applicationGuildCommands (Startup.clientId auth) guild)
                   body ok ∈ Startup.refresh auth rest) ↔
     Startup.guildId auth = Some guild ∧ guild ≠ EmptyString) ∧
  ((∃ body ok, Startup.Put (Startup.applicationCommands (Startup.clientId auth))
                 body ok ∈ Startup.refresh auth rest) ↔
   (∀ guild, Startup.guildId auth = Some guild → guild ≠ EmptyString →
      rest (Startup.applicationGuildCommands (Startup.clientId auth) guild) = true)).
Proof.
  unfold Startup.refresh.
  destruct (Startup.guildId auth) as [guild | ];
    [ destruct (decide (guild = EmptyString)) as [Hempty | Hguild];
      [ | destruct (rest (Startup.applicationGuildCommands (Startup.clientId auth) guild))
            eqn:Hput ] | ];
    destruct (rest (Startup.applicationCommands (Startup.clientId auth)));
    (split; [ intros guild' | ]); set_unfold;
    try (split;
         [ intros (body & ok & Hin); intuition (try discriminate; try congruence) | ]);
    try solve [ intuition (try discriminate; try congruence); eauto 8 ];
    try solve [ intros [[= <-] ?]; eauto 8 ];
    try solve [ intros; eauto 8 ];
    try solve [ intuition (try discriminate; try congruence);
                match goal with
                | H : Startup.Put _ _ _ = Startup.Put _ _ _ |- _ =>
                    injection H as <- <- <-
                end; eauto ];
    intros Hall; specialize (Hall guild eq_refl Hguild); congruence.
Qed.

(** X15: the startup logs that it started and then exactly one outcome:
    the success message when every put it made resolved, the error
    otherwise; the outcome comes last, every put carries the whole table
    of commands, and nothing is thrown. *)
Theorem startup_logs_one_outcome auth rest :
  head (Startup.refresh auth rest) = Some Startup.started ∧
  ((last (Startup.refresh auth rest) = Some Startup.reloaded ∧
    (Startup.LogError ∉ Startup.refresh auth rest) ∧
    (∀ route body ok, Startup.Put route body ok ∈ Startup.refresh auth rest →
       ok = true))
   ∨
   (last (Startup.refresh auth rest) = Some Startup.LogError ∧
    (Startup.reloaded ∉ Startup.refresh auth rest) ∧
    (∃ route body, Startup.Put route body false ∈ Startup.refresh auth rest))) ∧
  (∀ route body ok, Startup.Put route body ok ∈ Startup.refresh auth rest →
     body = commands ∧ ok = rest route).
Proof.
  unfold Startup.refresh.
  destruct (Startup.guildId auth) as [guild | ];
    [ destruct (decide (guild = EmptyString)) as [Hempty | Hguild];
      [ | destruct (rest (Startup.applicationGuildCommands (Startup.clientId auth) guild))
            eqn:Hput ] | ];
    destruct (rest (Startup.applicationCommands (Startup.clientId auth))) eqn:Hglobal;
    (split; [ reflexivity | split;
    [ first
        [ left; split; [ reflexivity | ]; split;
          [ set_unfold; intuition discriminate
          | intros route body ok Hin; set_unfold;
            intuition (try discriminate);
            match goal with
            | H : Startup.Put _ _ _ = Startup.Put _ _ _ |- _ => by injection H
            end ]
        | right; split; [ reflexivity | ]; split;
          [ unfold Startup.started, Startup.reloaded; set_unfold;
            intuition discriminate
          | eexists _, _;
            repeat (apply elem_of_cons; first [ left; reflexivity | right ]) ] ]
    | intros route body ok Hin; set_unfold;
      intuition (try discriminate);
      match goal with
      | H : Startup.Put _ _ _ = Startup.Put _ _ _ |- _ => injection H as -> -> ->
      end; done ]]).
Qed.

(** ** Where the voice channel of the member matters *)

(** X16: the voice channel of the member is looked at only when a play
    command finds no subscription for the guild.  For every other
    command, and for play in a guild that has a subscription, the run is
    the same whoever the member is and wherever they are: a member
    outside any voice channel can enqueue, skip, pause, resume and make
    the bot leave. *)
Theorem member_matters_only_on_first_play env i w g m :
  passes_guard i g →
  commandName i ≠ "play" ∨ is_Some (subscriptions w !! g) →
  handle env (with_member m i) w = handle env i w.
Proof.
  intros Hg Hcase. pose proof Hg as (Hcmd & Hguild & Hne).
  assert (Hg' : passes_guard (with_member m i) g) by done.
  destruct (decide (commandName i = "play")) as [Hplay | Hnp].
  - destruct Hcase as [Hnp | [s Hreg]]; [ contradiction | ].
    assert (H : command_in i "play" g) by done.
    assert (H' : command_in (with_member m i) "play" g) by done.
    rewrite (play_run env i w g H), (play_run env (with_member m i) w g H').
    unfold joined, joining, resolved, failed_to_play, failed_to_join.
    rewrite Hreg. reflexivity.
  - rewrite (simple_command_run env i w g Hg Hnp).
    by rewrite (simple_command_run env (with_member m i) w g Hg').
Qed.

(** ** Leave while a play command is resolving *)

Lemma leave_tree i g :
  command_in i "leave" g →
  interactionCreate i =
    Get g (λ subscription,
      match subscription with
      | Some s =>
          Do (ConnectionDestroy s)
            (Do (RegistryDelete g)
               (AwaitSend (Reply (interaction_id i) (private "Left channel!")) Return))
      | None =>
          AwaitSend (Reply (interaction_id i) (plain "Not playing in this server!"))
            Return
      end).
Proof.
  intros (Hcmd & Hguild & Hne & Hname). unfold interactionCreate.
  rewrite Hcmd, Hguild, Hname. cbn [negb].
  destruct (decide (g = EmptyString)) as [Heq | _]; [ contradiction | ].
  repeat match goal with
    | |- context [decide (?a = ?b)] =>
        destruct (decide (a = b)) as [Hd | Hd];
        [ try discriminate Hd | try (exfalso; apply Hd; reflexivity) ];
        clear Hd
    end.
  reflexivity.
Qed.

Lemma entersState_already_ready env s w sub :
  heap w !! s = Some sub → voiceConnection sub = Ready →
  entersState env s w = (w, true).
Proof.
  intros Hs Hc. unfold entersState, Subscription.await_ready. rewrite Hs, Hc.
  rewrite list_insert_id by exact Hs. by destruct w.
Qed.

(** X17: a leave command that runs while a play command of the same
    guild is suspended in [Track.from] does not stop that play command.
    The play handler goes on with the subscription it read before the
    leave: it calls [enqueue] on the subscription that was destroyed and
    removed, and follows up with "Enqueued", while the guild is left
    without an entry in the registry. *)
Theorem leave_during_resolution_does_not_stop_play env w g i i' s sub name :
  command_in i "play" g →
  command_in i' "leave" g →
  subscriptions w !! g = Some s →
  heap w !! s = Some sub →
  voiceConnection sub = Ready →
  validateURL env (song i) = true →
  track_info env (song i) = Some name →
  let '(w', evs, handlers) :=
    run_schedule env [0; 0; 0; 1; 1; 0; 0]
      [interactionCreate i; interactionCreate i'] w in
  handlers = [Return; Return] ∧
  calls evs =
    [ConnectionDestroy s; RegistryDelete g;
     Enqueue s (mkTrack (song i) name (interaction_id i))] ∧
  sent evs =
    [DeferReply (interaction_id i);
     Reply (interaction_id i') (private "Left channel!");
     FollowUp (interaction_id i) (plain ("Enqueued **" +:+ name +:+ "**"))] ∧
  subscriptions w' !! g = None.
Proof.
  intros H H' Hreg Hs Hready Hvalid Hinfo.
  assert (Hlt : s < length (heap w)) by (by eapply lookup_lt_Some).
  rewrite (play_tree i g H), (leave_tree i' g H').
  unfold run_schedule, turn, play, join_if_absent, resolve_and_enqueue.
  cbn [lookup list_lookup is_await go spend emit list_insert insert app].
  rewrite Hreg.
  cbn [lookup list_lookup is_await go spend emit list_insert insert app].
  rewrite (entersState_already_ready env s w sub Hs Hready).
  cbn [lookup list_lookup is_await go spend emit list_insert insert app].
  rewrite Hvalid.
  cbn [negb lookup list_lookup is_await go spend emit list_insert insert app].
  rewrite Hreg.
  cbn [lookup list_lookup is_await go spend emit list_insert insert app
       exec_call].
  unfold on_sub at 1. rewrite Hs.
  cbn [Subscription.destroy subscriptions heap
       lookup list_lookup is_await go spend emit list_insert insert app].
  unfold track_from. rewrite Hinfo.
  cbn [lookup list_lookup is_await go spend emit list_insert insert app title].
  match goal with
  | |- context [exec_call ?c ?w0] =>
      pose proof (exec_call_fires c w0) as Hf;
      pose proof (exec_call_registry c w0) as Hr;
      destruct (exec_call c w0) as [w3 fired]
  end.
  cbn [fst snd subscriptions] in Hf, Hr.
  destruct (fired_are_callbacks fired Hf) as (Hc & Hsent & _).
  cbn [lookup list_lookup is_await go spend emit list_insert insert app].
  split; [ reflexivity | ].
  rewrite app_nil_r. unfold calls, sent in *. cbn [omap list_omap].
  rewrite !omap_app, Hc, Hsent.
  split; [ reflexivity | split; [ reflexivity | ] ].
  rewrite Hr. apply lookup_delete_eq.
Qed.

(** ** These theorems at concrete inputs *)

Lemma passes_guard_in_guild name : passes_guard (Fixture.command name) "guild".
Proof. unfold passes_guard, Fixture.command. cbn. repeat split. discriminate. Defined.

Lemma request_in_guild : command_in Fixture.request "play" "guild".
Proof. unfold command_in, Fixture.request. cbn. repeat split. discriminate. Defined.

Lemma one_reply_per_command_witness :
  commandName (Fixture.command "skip") ≠ "play" ∧
  ∃ m, sent (handle Fixture.deaf (Fixture.command "skip") Fixture.busy).2 =
         [Reply "7" m].
Proof.
  assert (Hn : commandName (Fixture.command "skip") ≠ "play") by discriminate.
  split; [ exact Hn | ].
  exact (one_reply_per_command Fixture.deaf (Fixture.command "skip") Fixture.busy
           "guild" (passes_guard_in_guild "skip") Hn).
Defined.

Lemma other_commands_change_nothing_witness :
  (commandName (Fixture.command "minecraft") ∉ music_commands) ∧
  handle Fixture.deaf (Fixture.command "minecraft") Fixture.busy =
    (Fixture.busy, [EvGet "guild" (Some 0); EvSend (Reply "7" (plain "mc"))]).
Proof.
  assert (Hout : commandName (Fixture.command "minecraft") ∉ music_commands).
  { unfold music_commands. cbn. intros Hin.
    repeat (apply elem_of_cons in Hin as [Hin | Hin]; [ discriminate Hin | ]).
    by apply elem_of_nil in Hin. }
  split; [ exact Hout | ].
  exact (other_commands_change_nothing Fixture.deaf (Fixture.command "minecraft")
           Fixture.busy "guild" (passes_guard_in_guild "minecraft") Hout).
Defined.

Lemma pause_and_resume_call_the_player_witness :
  subscriptions Fixture.busy !! "guild" = Some 0 ∧
  calls (handle Fixture.deaf (Fixture.command "resume") Fixture.busy).2 =
    [PlayerUnpause 0] ∧
  sent (handle Fixture.deaf (Fixture.command "resume") Fixture.busy).2 =
    [Reply "7" (private "Unpaused!")].
Proof.
  assert (Hr : subscriptions Fixture.busy !! "guild" = Some 0) by reflexivity.
  split; [ exact Hr | ].
  destruct (pause_and_resume_call_the_player Fixture.deaf (Fixture.command "resume")
              Fixture.busy "guild" 0 (passes_guard_in_guild "resume")
              (or_intror eq_refl) Hr) as (Hc & Hs & _).
  split; [ exact Hc | exact Hs ].
Defined.

Lemma registry_changes_only_on_join_and_leave_witness :
  is_Some (subscriptions Fixture.busy !! "guild") ∧
  subscriptions (handle Fixture.deaf (Fixture.command "leave") Fixture.busy).1 =
    delete "guild" (subscriptions Fixture.busy).
Proof.
  assert (Hsome : is_Some (subscriptions Fixture.busy !! "guild")) by (by exists 0).
  split; [ exact Hsome | ].
  exact (proj1 (proj2 (registry_changes_only_on_join_and_leave Fixture.deaf
                         (Fixture.command "leave") Fixture.busy "guild"
                         (passes_guard_in_guild "leave")))
           eq_refl Hsome).
Defined.


Lemma destroy_only_with_delete_on_leave_witness :
  ConnectionDestroy 0 ∈
    calls (handle Fixture.deaf (Fixture.command "leave") Fixture.busy).2 ∧
  calls (handle Fixture.deaf (Fixture.command "leave") Fixture.busy).2 =
    [ConnectionDestroy 0; RegistryDelete "guild"].
Proof.
  destruct (destroy_only_with_delete_on_leave Fixture.deaf (Fixture.command "leave")
              Fixture.busy "guild" (passes_guard_in_guild "leave"))
    as (Hiff & _ & Hpair).
  assert (Hin : ConnectionDestroy 0 ∈
                  calls (handle Fixture.deaf (Fixture.command "leave") Fixture.busy).2).
  { apply Hiff. split; reflexivity. }
  split; [ exact Hin | exact (Hpair 0 Hin) ].
Defined.

Lemma registered_commands_have_a_branch_witness :
  NoDup command_names ∧
  (Reply "7" (plain "Unknown command") ∈
     sent (handle Fixture.deaf (Fixture.command "volume") Fixture.busy).2 ↔
   "volume" ∉ command_names).
Proof.
  exact (registered_commands_have_a_branch Fixture.deaf (Fixture.command "volume")
           Fixture.busy "guild" (passes_guard_in_guild "volume")).
Defined.

Lemma only_play_constructs_witness :
  in_voice Fixture.request ∧
  created (handle Race.env Fixture.request Race.start).2 = [0].
Proof.
  assert (Hv : in_voice Fixture.request) by (by eexists).
  split; [ exact Hv | ].
  assert (Hg : passes_guard Fixture.request "guild").
  { unfold passes_guard. cbn. repeat split. discriminate. }
  exact (proj1 (only_play_constructs Race.env Fixture.request Race.start "guild" Hg)
           eq_refl eq_refl Hv).
Defined.

Lemma play_enqueues_the_resolved_track_witness :
  joined Fixture.request "guild" Fixture.connecting = Some (0, Fixture.connecting) ∧
  entersState Race.env 0 Fixture.connecting =
    (mkWorld {[ "guild" := 0 ]} [mkSub Ready Idle []], true) ∧
  calls (handle Race.env Fixture.request Fixture.connecting).2 =
    [Enqueue 0 (mkTrack "https://d" "https://d" "9")] ∧
  sent (handle Race.env Fixture.request Fixture.connecting).2 =
    [DeferReply "9"; FollowUp "9" (plain "Enqueued **https://d**")].
Proof.
  assert (Hj : joined Fixture.request "guild" Fixture.connecting =
               Some (0, Fixture.connecting)) by reflexivity.
  assert (Hw : entersState Race.env 0 Fixture.connecting =
               (mkWorld {[ "guild" := 0 ]} [mkSub Ready Idle []], true)) by reflexivity.
  split; [ exact Hj | split; [ exact Hw | ] ].
  destruct (play_enqueues_the_resolved_track Race.env Fixture.request Fixture.connecting
              "guild" 0 _ _ "https://d" "https://d" request_in_guild Hj Hw
              eq_refl eq_refl) as (Hc & Hs & _).
  split; [ exact Hc | exact Hs ].
Defined.

Lemma search_only_for_what_is_not_a_url_witness :
  EvSearch "never heard" ∈
    (handle Fixture.deaf (Fixture.command "play") Fixture.busy).2 ∧
  validateURL Fixture.deaf "never heard" = false.
Proof.
  assert (Hin : EvSearch "never heard" ∈
                  (handle Fixture.deaf (Fixture.command "play") Fixture.busy).2).
  { cbn. repeat (apply elem_of_cons; first [ by left | right ]). }
  split; [ exact Hin | ].
  exact (proj2 (proj1 (search_only_for_what_is_not_a_url Fixture.deaf
                         (Fixture.command "play") Fixture.busy "guild"
                         (command_in_guild "play"))
                  "never heard" Hin)).
Defined.

Lemma plays_one_after_the_other_share_witness :
  subscriptions Race.start !! "guild" = None ∧
  in_voice Race.first_request ∧
  created ((handle Race.env Race.first_request Race.start).2 ++
           (handle Race.env Race.second_request
              (handle Race.env Race.first_request Race.start).1).2) = [0].
Proof.
  assert (Hnone : subscriptions Race.start !! "guild" = None) by reflexivity.
  assert (Hv : in_voice Race.first_request) by (by eexists).
  assert (H1 : command_in Race.first_request "play" "guild").
  { unfold command_in. cbn. repeat split. discriminate. }
  assert (H2 : command_in Race.second_request "play" "guild").
  { unfold command_in. cbn. repeat split. discriminate. }
  split; [ exact Hnone | split; [ exact Hv | ] ].
  exact (proj1 (plays_one_after_the_other_share Race.env Race.env Race.first_request
                  Race.second_request Race.start "guild" H1 H2 Hnone Hv)).
Defined.

Lemma member_matters_only_on_first_play_witness :
  is_Some (subscriptions Fixture.busy !! "guild") ∧
  handle Race.env (with_member APIMember Fixture.request) Fixture.busy =
    handle Race.env Fixture.request Fixture.busy.
Proof.
  assert (Hsome : is_Some (subscriptions Fixture.busy !! "guild")) by (by exists 0).
  assert (Hg : passes_guard Fixture.request "guild").
  { unfold passes_guard. cbn. repeat split. discriminate. }
  split; [ exact Hsome | ].
  exact (member_matters_only_on_first_play Race.env Fixture.request Fixture.busy
           "guild" APIMember Hg (or_intror Hsome)).
Defined.

Lemma leave_during_resolution_does_not_stop_play_witness :
  let '(w', evs, handlers) :=
    run_schedule Race.env [0; 0; 0; 1; 1; 0; 0]
      [interactionCreate Fixture.request; interactionCreate (Fixture.command "leave")]
      Fixture.busy in
  handlers = [Return; Return] ∧
  calls evs =
    [ConnectionDestroy 0; RegistryDelete "guild";
     Enqueue 0 (mkTrack "https://d" "https://d" "9")] ∧
  sent evs =
    [DeferReply "9"; Reply "7" (private "Left channel!");
     FollowUp "9" (plain "Enqueued **https://d**")] ∧
  subscriptions w' !! "guild" = None.
Proof.
  exact (leave_during_resolution_does_not_stop_play Race.env Fixture.busy "guild"
           Fixture.request (Fixture.command "leave") 0 _ "https://d"
           request_in_guild (command_in_guild "leave")
           eq_refl eq_refl eq_refl eq_refl eq_refl).
Defined.

(** ** Play when a send is rejected *)

(** Under a gateway that delivers everything the play branch is the one
    of [interactionCreate]. *)
Lemma play_via_delivering i g subscription :
  play_via (λ _, true) i g subscription = play i g subscription.
Proof. reflexivity. Qed.




